(** * boostedblob: byte ranges, deletion and directory synchronisation

    A shallow embedding of [boostedblob/read.py], [boostedblob/delete.py]
    and of the synchronisation engine exercised by [tests/test_syncing.py],
    with the properties the specification states about them. *)

From Stdlib Require Import ZArith List Lia Bool Ascii.
From stdpp Require Import base numbers list strings pretty gmap sorting.

(** * Python values shared by the modules *)

(** The exceptions the embedded code raises.  [FileNotFoundError] and
    [NotADirectoryError] carry their argument, when they are given one, so
    that [FileNotFoundError()] of the request layer and
    [FileNotFoundError(path)] of [rmtree_iterator] stay distinct. *)
Inductive exn (P : Type) : Type :=
  | ValueError
  | AssertionError
  | IsADirectoryError
  | FileNotFoundError (arg : option P)
  | NotADirectoryError (arg : option P)
  | RequestFailure (status : Z).

Arguments ValueError {P}.
Arguments AssertionError {P}.
Arguments IsADirectoryError {P}.
Arguments FileNotFoundError {P} arg.
Arguments NotADirectoryError {P} arg.
Arguments RequestFailure {P} status.

(** * read.py *)

Module Read.

Local Open Scope Z_scope.

(** [ByteRange = Tuple[int, int]] *)
Definition ByteRange : Type := Z * Z.

(** Number of elements of Python's [range(start, stop, step)], [step <> 0]. *)
Definition range_len (start stop step : Z) : Z :=
  if 0 <? step then
    (if start <? stop then (stop - 1 - start) / step + 1 else 0)
  else
    (if stop <? start then (start - 1 - stop) / (- step) + 1 else 0).

(** Python's [range(start, stop, step)] drained into a list; [step = 0]
    raises [ValueError]. *)
Definition range (start stop step : Z) : option (list Z) :=
  if step =? 0 then None
  else Some (map (fun i : nat => start + Z.of_nat i * step)
                 (seq 0 (Z.to_nat (range_len start stop step)))).

(** [itertools.zip_longest(xs, ys, fillvalue=fill)] *)
Fixpoint zip_longest {A : Type} (fill : A) (xs ys : list A) : list (A * A) :=
  match xs with
  | [] => map (fun y => (fill, y)) ys
  | x :: xs' =>
      match ys with
      | [] => (x, fill) :: zip_longest fill xs' []
      | y :: ys' => (x, y) :: zip_longest fill xs' ys'
      end
  end.

(** The expression bound to [byte_ranges] in [_cloud_read_stream] and in
    [read_stream_unordered]:
    [zip_longest(range(0, size, c), range(c, size, c), fillvalue=size)]. *)
Definition byte_ranges (size chunk_size : Z) : option (list ByteRange) :=
  match range 0 size chunk_size, range chunk_size size chunk_size with
  | Some starts, Some ends => Some (zip_longest size starts ends)
  | _, _ => None
  end.

(** Which mapping of the executor a stream is handed to. *)
Inductive discipline := Ordered | Unordered.

(** What a read stream hands to the executor: the mapping discipline and the
    inputs, here the byte ranges that [read_byte_range] is mapped over. *)
Record boostable := { mapping : discipline; inputs : list ByteRange }.

(** [_cloud_read_stream(path, executor, size)].  [getsize] is the answer of
    [await getsize(path)], used when [size is None]; [chunk_size] is
    [config.chunk_size].  [None] is the [ValueError] of [range]. *)
Definition _cloud_read_stream (getsize chunk_size : Z) (size : option Z)
  : option boostable :=
  let size := match size with None => getsize | Some s => s end in
  match byte_ranges size chunk_size with
  | Some rs => Some {| mapping := Ordered; inputs := rs |}
  | None => None
  end.

(** [read_stream_unordered(path, executor, size)] for a cloud path. *)
Definition read_stream_unordered (getsize chunk_size : Z) (size : option Z)
  : option boostable :=
  let size := match size with None => getsize | Some s => s end in
  match byte_ranges size chunk_size with
  | Some rs => Some {| mapping := Unordered; inputs := rs |}
  | None => None
  end.

(** Python's [str(n)] of an [int], as an f-string formats it. *)
Definition py_str (n : Z) : string := pretty n.

(** [_byte_range_to_str(byte_range)]; [inr AssertionError] is the final
    [raise AssertionError]. *)
Definition _byte_range_to_str (byte_range : option Z * option Z)
  : string + exn unit :=
  let '(start, end_) := byte_range in
  match start, end_ with
  | Some s, Some e => inl ("bytes=" +:+ py_str s +:+ "-" +:+ py_str (e - 1))
  | Some s, None => inl ("bytes=" +:+ py_str s +:+ "-")
  | None, Some e =>
      if 0 <? e then inl ("bytes=0-" +:+ py_str (e - 1))
      else inl ("bytes=-" +:+ py_str (- e))
  | None, None => inr AssertionError
  end.

(** The closed form of the ranges: [k] chunks, the last one cut at [size]. *)
Definition chunk_count (size c : Z) : nat := Z.to_nat ((size + c - 1) / c).

Definition nth_chunk (size c : Z) (i : nat) : ByteRange :=
  (Z.of_nat i * c, Z.min ((Z.of_nat i + 1) * c) size).

Definition chunks (size c : Z) : list ByteRange :=
  map (nth_chunk size c) (seq 0 (chunk_count size c)).

(** [rs] cuts [0, size) into consecutive half-open pieces of length [c],
    the last one possibly shorter. *)
Record tiles (size c : Z) (rs : list ByteRange) : Prop := {
  tiles_start : forall i s e, rs !! i = Some (s, e) -> s = Z.of_nat i * c;
  tiles_nonempty : forall i s e, rs !! i = Some (s, e) -> s < e;
  tiles_next : forall i s e s' e',
    rs !! i = Some (s, e) -> rs !! S i = Some (s', e') -> e = s';
  tiles_full : forall i s e,
    rs !! i = Some (s, e) -> (S i < length rs)%nat -> e - s = c;
  tiles_last : forall i s e,
    rs !! i = Some (s, e) -> S i = length rs -> e = size /\ e - s <= c;
  tiles_disjoint : forall i j s e s' e',
    (i < j)%nat -> rs !! i = Some (s, e) -> rs !! j = Some (s', e') -> e <= s';
  tiles_cover : forall x,
    0 <= x < size <-> exists s e, In (s, e) rs /\ s <= x < e
}.

(** The value of the [Range] header that [_azure_read_byte_range] and
    [_google_read_byte_range] compute for a byte range of the stream. *)
Definition range_header (byte_range : ByteRange) : string + exn unit :=
  _byte_range_to_str (Some (fst byte_range), Some (snd byte_range)).

(** What a half-open byte range denotes in a content: the items at the
    offsets [start <= i < end]. *)
Definition bytes_at {A : Type} (content : list A) (r : ByteRange) : list A :=
  take (Z.to_nat (snd r - fst r)) (drop (Z.to_nat (fst r)) content).

(** [f.read(n)] on what is left of a file opened for reading: the data read
    and what is left after it; a negative [n] reads to the end. *)
Definition file_read {A : Type} (n : Z) (rest : list A) : list A * list A :=
  if n <? 0 then (rest, [])
  else (take (Z.to_nat n) rest, drop (Z.to_nat n) rest).

(** The generator [iterator()] of [_local_read_stream], run for at most
    [fuel] rounds of its [while True]: [None] when it has not returned by
    then. *)
Fixpoint local_iterator {A : Type} (fuel : nat) (chunk_size : Z)
    (rest : list A) : option (list (list A)) :=
  match fuel with
  | O => None
  | S fuel' =>
      let '(data, rest') := file_read chunk_size rest in
      match data with
      | [] => Some []
      | _ :: _ =>
          match local_iterator fuel' chunk_size rest' with
          | Some yields => Some (data :: yields)
          | None => None
          end
      end
  end.

(** [_local_read_stream(path, executor, size)] on a file that holds
    [content]; [chunk_size] is [config.chunk_size].  Every round that goes
    on reads at least one item, so one round more than there are items is
    enough. *)
Definition _local_read_stream {A : Type} (chunk_size : Z) (content : list A)
  : option (list (list A)) :=
  local_iterator (S (length content)) chunk_size content.

(** The number of bytes that a list of ranges asks for. *)
Definition total_length (rs : list ByteRange) : Z :=
  foldr (fun r acc => (snd r - fst r) + acc) 0 rs.

(** No ["-"] in a string. *)
Fixpoint dash_free (s : string) : bool :=
  match s with
  | EmptyString => true
  | String a s' => negb (Ascii.eqb a "-"%char) && dash_free s'
  end.

End Read.

(** * delete.py *)

Module Delete.

(** ** Paths ([path.py] is not among the sources)

    The URL templates of [_azure_remove] and [_google_remove] name the
    components of the two kinds of cloud path. *)
Record AzurePath := { account : string; container : string; blob : string }.
Record GooglePath := { bucket : string; gblob : string }.

Inductive CloudPath :=
  | Azure (p : AzurePath)
  | Google (p : GooglePath).

#[export] Instance AzurePath_eq_dec : EqDecision AzurePath.
Proof. solve_decision. Defined.
#[export] Instance GooglePath_eq_dec : EqDecision GooglePath.
Proof. solve_decision. Defined.
#[export] Instance CloudPath_eq_dec : EqDecision CloudPath.
Proof. solve_decision. Defined.

(** The methods of a path that [delete.py] calls; their code is in
    [path.py], so they are taken as they come. *)
Class PathOps := {
  is_directory_like : CloudPath -> bool;
  ensure_directory_like : CloudPath -> CloudPath;
  format_url : CloudPath -> string -> string
}.

(** ** Requests

    [Request(method=..., url=..., success_codes=..., failure_exceptions=...)]
    as [delete.py] builds it; [headers] is where the credentials go. *)
Record Request := {
  method : string;
  url : string;
  headers : list (string * string);
  success_codes : list Z;
  failure_exceptions : list (Z * exn CloudPath)
}.

#[export] Instance exn_eq_dec : EqDecision (exn CloudPath).
Proof. solve_decision. Defined.
#[export] Instance Request_eq_dec : EqDecision Request.
Proof. solve_decision. Defined.

(** The storage services and the functions of [path.py] and [listing.py]
    that ask them questions: what a service answers to a request (status
    code, and the store after it), what [listtree] enumerates under a
    directory, what [isfile] answers, and the credentials that
    [azurify_request] and [googlify_request] attach. *)
Class Backend (W : Type) := {
  respond : Request -> W -> Z * W;
  listtree : CloudPath -> W -> list CloudPath;
  isfile : CloudPath -> W -> bool;
  azure_credentials : list (string * string);
  google_credentials : list (string * string)
}.

(** What an observer of one call sees, in the order it happens. *)
Inductive event :=
  | Sent (r : Request)          (* a request reached the service *)
  | Listed (dirpath : CloudPath) (* [listtree(dirpath)] was started *)
  | Called (entry : CloudPath)   (* [remove_wrapper(entry)] was entered *)
  | Yielded (p : CloudPath)      (* the iterator yielded [p] *)
  | Checked (p : CloudPath).     (* [isfile(p)] was awaited *)

#[export] Instance event_eq_dec : EqDecision event.
Proof. solve_decision. Defined.

(** The paths yielded, in the order they were yielded. *)
Definition yielded (tr : list event) : list CloudPath :=
  omap (fun ev => match ev with Yielded p => Some p | _ => None end) tr.

(** The requests sent, in the order they were sent. *)
Definition sent (tr : list event) : list Request :=
  omap (fun ev => match ev with Sent r => Some r | _ => None end) tr.

(** The paths whose existence was checked. *)
Definition checked (tr : list event) : list CloudPath :=
  omap (fun ev => match ev with Checked p => Some p | _ => None end) tr.

(** How a coroutine ends: with a value, with an exception, or not within
    the steps it was given. *)
Inductive outcome (A : Type) : Type :=
  | Done (a : A)
  | Raise (e : exn CloudPath)
  | Diverge.
Arguments Done {A} a.
Arguments Raise {A} e.
Arguments Diverge {A}.

Section Delete.
Context `{PathOps} {W : Type} `{Backend W}.

(** The store and the events so far. *)
Record state := { world : W; trace : list event }.

Definition M (A : Type) : Type := state -> outcome A * state.

Definition ret {A} (a : A) : M A := fun st => (Done a, st).
Definition raise {A} (e : exn CloudPath) : M A := fun st => (Raise e, st).
Definition diverge {A} : M A := fun st => (Diverge, st).
Definition bind {A B} (c : M A) (k : A -> M B) : M B := fun st =>
  match c st with
  | (Done a, st') => k a st'
  | (Raise e, st') => (Raise e, st')
  | (Diverge, st') => (Diverge, st')
  end.
Definition emit (ev : event) : M unit := fun st =>
  (Done tt, {| world := world st; trace := trace st ++ [ev] |}).

Notation "x <- c ;; k" := (bind c (fun x => k))
  (at level 100, c at next level, right associativity).
Notation "c ;;; k" := (bind c (fun _ => k))
  (at level 100, right associativity).

(** Modelled from the spec: [request.py] is not among the sources.
    Authentication is an external collaborator (spec, section 1): the
    request keeps its method, URL, success codes and failure exceptions and
    gains the credentials. *)
Definition azurify_request (r : Request) : M Request :=
  ret {| method := method r; url := url r;
         headers := azure_credentials ++ headers r;
         success_codes := success_codes r;
         failure_exceptions := failure_exceptions r |}.

Definition googlify_request (r : Request) : M Request :=
  ret {| method := method r; url := url r;
         headers := google_credentials ++ headers r;
         success_codes := success_codes r;
         failure_exceptions := failure_exceptions r |}.

Fixpoint dict_get {V : Type} (k : Z) (d : list (Z * V)) : option V :=
  match d with
  | [] => None
  | (k', v) :: d' => if Z.eqb k k' then Some v else dict_get k d'
  end.

(** Modelled from the spec: [request.py] is not among the sources.
    [execute_reponseless] sends the request; a status among the request's
    [success_codes] is success, a status that [failure_exceptions] maps to
    an exception raises it (not-found, spec section 7), any other status is
    a failure of the request. *)
Definition execute_reponseless (r : Request) : M unit := fun st =>
  let '(status, w') := respond r (world st) in
  let st' := {| world := w'; trace := trace st ++ [Sent r] |} in
  if existsb (Z.eqb status) (success_codes r) then (Done tt, st')
  else match dict_get status (failure_exceptions r) with
       | Some e => (Raise e, st')
       | None => (Raise (RequestFailure status), st')
       end.

(** [_azure_remove(path)] *)
Definition _azure_remove (path : AzurePath) : M unit :=
  if is_directory_like (Azure path) then raise IsADirectoryError
  else
    request <- azurify_request
      {| method := "DELETE";
         url := format_url (Azure path)
                  "https://{account}.blob.core.windows.net/{container}/{blob}";
         headers := [];
         success_codes := [202%Z];
         failure_exceptions := [(404%Z, FileNotFoundError None)] |} ;;
    execute_reponseless request.

(** [_google_remove(path)] *)
Definition _google_remove (path : GooglePath) : M unit :=
  if is_directory_like (Google path) then raise IsADirectoryError
  else
    request <- googlify_request
      {| method := "DELETE";
         url := format_url (Google path)
                  "https://storage.googleapis.com/storage/v1/b/{bucket}/o/{blob}";
         headers := [];
         success_codes := [204%Z];
         failure_exceptions := [(404%Z, FileNotFoundError None)] |} ;;
    execute_reponseless request.

(** [remove(path)] on a cloud path: [pathdispatch] picks the
    implementation registered for the type of [path]. *)
Definition remove (path : CloudPath) : M unit :=
  match path with
  | Azure p => _azure_remove p
  | Google p => _google_remove p
  end.

(** The request that [remove(path)] sends when it sends one. *)
Definition delete_request (path : CloudPath) : Request :=
  match path with
  | Azure _ =>
      {| method := "DELETE";
         url := format_url path
                  "https://{account}.blob.core.windows.net/{container}/{blob}";
         headers := azure_credentials ++ [];
         success_codes := [202%Z];
         failure_exceptions := [(404%Z, FileNotFoundError None)] |}
  | Google _ =>
      {| method := "DELETE";
         url := format_url path
                  "https://storage.googleapis.com/storage/v1/b/{bucket}/o/{blob}";
         headers := google_credentials ++ [];
         success_codes := [204%Z];
         failure_exceptions := [(404%Z, FileNotFoundError None)] |}
  end.

(** ** The executor ([boost.py] is not among the sources) *)

(** [BoostExecutor(concurrency)], with a positive number of slots. *)
Record BoostExecutor := { concurrency : positive }.

(** What happens next in a mapping is not for the program to choose: either
    the next input is pulled and its task started, or the in-flight task at
    some position finishes. *)
Inductive choice := Pull | Complete (i : nat).

(** What the mapping does next, with [slots] slots in all. *)
Inductive action := Stop | DoPull | DoComplete (i : nat).

Definition next_action {A : Type} (slots : nat) (sched : list choice)
    (pending inflight : list A) : action :=
  let can_pull :=
    match pending with
    | [] => false
    | _ :: _ => (length inflight <? slots)%nat
    end in
  match inflight with
  | [] => if can_pull then DoPull else Stop
  | _ :: _ =>
      match sched with
      | Complete i :: _ => DoComplete (i mod length inflight)
      | _ => if can_pull then DoPull else DoComplete 0
      end
  end.

Section map_unordered.
Context {A B L : Type}.
(** A task runs from its start to its first suspension, where it can only
    touch the variables it closes over ([enter]), and later to its end
    ([finish]); [body] is the body of the consumer's [async for]. *)
Variable enter : A -> L -> M L.
Variable finish : A -> M B.
Variable body : B -> L -> M L.
Variable executor : BoostExecutor.

(** Modelled from the spec: [boost.py] is not among the sources.
    [map_unordered(f, inputs)] (spec, section 4.1): at most [concurrency]
    tasks are in flight; inputs are pulled only when a slot is free; each
    output is delivered as soon as its task completes, in completion order,
    without buffering; the first task failure is surfaced and the other
    in-flight tasks are cancelled.  [sched] is the order in which the
    environment lets things happen; a choice that is not possible is
    replaced by one that is. *)
Fixpoint map_unordered (fuel : nat) (sched : list choice)
    (pending inflight : list A) (locals : L) : M L :=
  match fuel with
  | O => diverge
  | S fuel' =>
      match next_action (Pos.to_nat (concurrency executor))
                        sched pending inflight with
      | Stop => ret locals
      | DoPull =>
          match pending with
          | [] => diverge
          | a :: rest =>
              locals' <- enter a locals ;;
              map_unordered fuel' (tail sched) rest (inflight ++ [a]) locals'
          end
      | DoComplete i =>
          match inflight !! i with
          | None => diverge
          | Some a =>
              b <- finish a ;;
              locals' <- body b locals ;;
              map_unordered fuel' (tail sched) pending (delete i inflight)
                            locals'
          end
      end
  end.

End map_unordered.

(** ** rmtree *)

(** The variables of one call of [rmtree_iterator] that its closure and its
    loop assign: [subpath_exists] and [path], which the loop rebinds. *)
Record frame := { subpath_exists : bool; path : CloudPath }.

(** [remove_wrapper(entry)], up to its first suspension and from there. *)
Definition remove_wrapper_enter (entry : CloudPath) (f : frame) : M frame :=
  emit (Called entry) ;;;
  ret {| subpath_exists := true; path := path f |}.

Definition remove_wrapper_finish (entry : CloudPath) : M CloudPath :=
  remove entry ;;; ret entry.

(** The body of [async for path in ...: yield path]. *)
Definition yield_path (p : CloudPath) (f : frame) : M frame :=
  emit (Yielded p) ;;;
  ret {| subpath_exists := subpath_exists f; path := p |}.

(** [EagerAsyncIterator(listtree(dirpath))] *)
Definition run_listtree (dirpath : CloudPath) : M (list CloudPath) := fun st =>
  (Done (listtree dirpath (world st)),
   {| world := world st; trace := trace st ++ [Listed dirpath] |}).

(** [await isfile(path)] *)
Definition run_isfile (p : CloudPath) : M bool := fun st =>
  (Done (isfile p (world st)),
   {| world := world st; trace := trace st ++ [Checked p] |}).

(** [rmtree_iterator(path, executor)]; the paths it yields are the
    [Yielded] events of the trace. *)
Definition rmtree_iterator (path0 : CloudPath) (executor : BoostExecutor)
    (sched : list choice) : M unit :=
  let dirpath := ensure_directory_like path0 in
  let f0 := {| subpath_exists := false; path := path0 |} in
  it <- run_listtree dirpath ;;
  f <- map_unordered remove_wrapper_enter remove_wrapper_finish yield_path
         executor (2 * length it + 1) sched it [] f0 ;;
  if negb (subpath_exists f) then
    is_file <- run_isfile (path f) ;;
    if negb is_file then raise (FileNotFoundError (Some (path f)))
    else raise (NotADirectoryError (Some (path f)))
  else ret tt.

(** [consume(it)] runs the iterator to its end and drops what it yields. *)
Definition consume (it : M unit) : M unit := it.

(** [_cloud_rmtree(path, executor)] *)
Definition _cloud_rmtree (path0 : CloudPath) (executor : BoostExecutor)
    (sched : list choice) : M unit :=
  consume (rmtree_iterator path0 executor sched).

(** A call starts with nothing observed yet. *)
Definition start (w : W) : state := {| world := w; trace := [] |}.

(** The status a service answers to a successful delete. *)
Definition deleted_status (p : CloudPath) : Z :=
  match p with Azure _ => 202 | Google _ => 204 end.

(** A notion of "the blob at [p] exists" that the service honours: deleting
    an existing blob succeeds, the blob is gone afterwards, and blobs at
    other URLs stay. *)
Class DeletesBlobs (has_blob : CloudPath -> W -> Prop) : Prop := {
  delete_blob : forall p w,
    has_blob p w ->
    exists w',
      respond (delete_request p) w = (deleted_status p, w') /\
      ~ has_blob p w' /\
      forall q, url (delete_request q) <> url (delete_request p) ->
                (has_blob q w' <-> has_blob q w)
}.

(** The exceptions that [remove] lets out. *)
Definition remove_error (e : exn CloudPath) : Prop :=
  e = IsADirectoryError \/ e = FileNotFoundError None \/
  exists status, e = RequestFailure status.

(** In a trace, every path is yielded after [remove_wrapper] was entered
    for it and after its delete request was sent. *)
Definition removed_before_yielded (tr : list event) : Prop :=
  forall tr1 tr2 e,
    tr = tr1 ++ Yielded e :: tr2 ->
    In (Called e) tr1 /\ In (Sent (delete_request e)) tr1.

End Delete.

Arguments state W : clear implicits.
Arguments M W A : clear implicits.

(** ** A store of blobs kept by URL, for the examples *)

Definition ends_with_slash (s : string) : bool :=
  match String.rev s with
  | String "/"%char _ => true
  | _ => false
  end.

Definition blob_of (p : CloudPath) : string :=
  match p with Azure a => blob a | Google g => gblob g end.

Definition with_blob (p : CloudPath) (b : string) : CloudPath :=
  match p with
  | Azure a => Azure {| account := account a; container := container a; blob := b |}
  | Google g => Google {| bucket := bucket g; gblob := b |}
  end.

Definition example_url (p : CloudPath) (template : string) : string :=
  match p with
  | Azure a =>
      "https://" +:+ account a +:+ ".blob.core.windows.net/" +:+
      container a +:+ "/" +:+ blob a
  | Google g =>
      "https://storage.googleapis.com/storage/v1/b/" +:+ bucket g +:+
      "/o/" +:+ gblob g
  end.

#[export] Instance example_paths : PathOps := {|
  is_directory_like p :=
    match blob_of p with "" => true | b => ends_with_slash b end;
  ensure_directory_like p :=
    if ends_with_slash (blob_of p) then p
    else with_blob p (blob_of p +:+ "/");
  format_url := example_url
|}.

(** The store: the paths of the blobs that exist. *)
Definition store : Type := list CloudPath.

(** The service is chosen by the host of the URL; each service has its own
    status for a delete that succeeded. *)
Definition served_status (u : string) : Z :=
  if String.prefix "https://storage.googleapis.com/" u then 204%Z else 202%Z.

Definition store_respond (r : Request) (w : store) : Z * store :=
  if existsb (fun q => bool_decide (example_url q "" = url r)) w
  then (served_status (url r),
        filter (fun q => example_url q "" <> url r) w)
  else (404%Z, w).

Definition same_service (p q : CloudPath) : bool :=
  match p, q with
  | Azure a, Azure b =>
      bool_decide (account a = account b /\ container a = container b)
  | Google a, Google b => bool_decide (bucket a = bucket b)
  | _, _ => false
  end.

#[export] Instance example_backend : Backend store := {|
  respond := store_respond;
  listtree dirpath w :=
    filter (fun p => same_service dirpath p
                     && String.prefix (blob_of dirpath) (blob_of p)) w;
  isfile p w :=
    negb (is_directory_like p) && bool_decide (p ∈ w);
  azure_credentials := [("Authorization", "Bearer azure")];
  google_credentials := [("Authorization", "Bearer google")]
|}.

Definition example_has_blob (p : CloudPath) (w : store) : Prop :=
  (exists q, q ∈ w /\ example_url q "" = example_url p "") /\
  served_status (example_url p "") = deleted_status p.

Definition az (b : string) : CloudPath :=
  Azure {| account := "acct"; container := "box"; blob := b |}.

Definition example_store : store := [az "d/a"; az "d/b/c"; az "e"].

Definition example_executor : BoostExecutor := {| concurrency := 2 |}.

End Delete.

(** * Directory synchronisation

    [boostedblob/syncing.py] is not among the sources: what is known of it
    is the specification and [tests/test_syncing.py], which calls
    [sync_iterator(src, dst)] and [sync(src, dst, executor, delete=...)]
    and states what they must answer. *)

Module Syncing.

Local Open Scope Z_scope.

(** A file of a tree: its bytes and its modification time. *)
Record File := { contents : string; modified : Z }.

(** A tree: the files under a root, by relative path. *)
Abbreviation tree := (gmap string File).

(** [DirEntry] (spec, section 3): relative path, size in bytes,
    modification time, directory flag. *)
Record DirEntry := { relpath : string; size : Z; mtime : Z; is_dir : bool }.

Definition file_size (f : File) : Z := Z.of_nat (String.length (contents f)).

Definition entry_of (p : string) (f : File) : DirEntry :=
  {| relpath := p; size := file_size f; mtime := modified f; is_dir := false |}.

(** [listtree(root)]: one entry per file, in no particular order. *)
Definition listtree (t : tree) : list DirEntry :=
  (fun pf => entry_of (fst pf) (snd pf)) <$> map_to_list t.

Inductive Action :=
  | CopyAction (relpath : string) (size : Z)
  | DeleteAction (relpath : string).

#[export] Instance Action_eq_dec : EqDecision Action.
Proof. solve_decision. Defined.

Definition action_relpath (a : Action) : string :=
  match a with CopyAction p _ => p | DeleteAction p => p end.

Definition entry_le (a b : DirEntry) : Prop := String.le (relpath a) (relpath b).

#[export] Instance entry_le_dec : RelDecision entry_le.
Proof. intros a b. unfold entry_le. apply _. Defined.

(** The entries of a tree sorted by relative path. *)
Definition sorted_entries (t : tree) : list DirEntry :=
  merge_sort entry_le (listtree t).

Definition copy_of (x : DirEntry) : Action := CopyAction (relpath x) (size x).

(** Strictly before, in the order of paths. *)
Definition path_lt (p q : string) : Prop := String.compare p q = Lt.

(** Sorted by path, no path twice. *)
Definition strict (xs : list DirEntry) : Prop :=
  StronglySorted (fun a b => path_lt (relpath a) (relpath b)) xs.

Section merge_join.
(** When a path is in both trees: is the source entry to be copied over the
    destination entry?  And: are deletions asked for? *)
Variable changed : DirEntry -> DirEntry -> bool.
Variable deleting : bool.

(** Modelled from the spec: [syncing.py] is not among the sources.  The
    merge join of the two sequences sorted by path (spec, section 4.3): a
    path only in the source is copied, a path only in the destination is
    deleted when deletions are asked for, a path in both is copied when its
    entries differ. *)
Fixpoint merge_join (src_files dst_files : list DirEntry) : list Action :=
  match src_files with
  | [] => if deleting then (fun y => DeleteAction (relpath y)) <$> dst_files
          else []
  | x :: src_files' =>
      (fix against (dst_files : list DirEntry) : list Action :=
         match dst_files with
         | [] => copy_of x :: (copy_of <$> src_files')
         | y :: dst_files' =>
             match String.compare (relpath x) (relpath y) with
             | Lt => copy_of x :: merge_join src_files' dst_files
             | Gt => (if deleting then [DeleteAction (relpath y)] else [])
                       ++ against dst_files'
             | Eq => (if changed x y then [copy_of x] else [])
                       ++ merge_join src_files' dst_files'
             end
         end) dst_files
  end.

End merge_join.

(** Size equality is file equality, as the specification words it. *)
Definition size_differs (x y : DirEntry) : bool :=
  negb (Z.eqb (size x) (size y)).

(** What the test asks for on top of that: a file whose source is newer
    than its copy is copied again, even at equal size. *)
Definition size_differs_or_newer (x y : DirEntry) : bool :=
  negb (Z.eqb (size x) (size y)) || Z.ltb (mtime y) (mtime x).

(** Modelled from the spec: [syncing.py] is not among the sources.
    [sync_iterator(src, dst)] lists both trees, sorts each listing by
    relative path and merge-joins them (spec, section 4.3).  Where the words
    of the specification and [test_sync] disagree, the test is followed:
    [sync_iterator] is called without a delete flag and answers
    [DeleteAction("f2")] (test, lines 46-52), and a file rewritten in the
    source with its size unchanged is answered [CopyAction("delta/f9", 4)]
    (test, lines 41-42 and 50), which only its modification time can tell
    (test, lines 32-33).  Both roots exist here; the not-found condition
    of an absent source root is not part of this model. *)
Definition sync_iterator (src dst : tree) : list Action :=
  merge_join size_differs_or_newer true (sorted_entries src) (sorted_entries dst).

(** The specification taken at its word: size-only comparison, and
    [DeleteAction]s only when [delete] is set. *)
Definition sync_iterator_as_worded (src dst : tree) (delete : bool)
  : list Action :=
  merge_join size_differs delete (sorted_entries src) (sorted_entries dst).

(** The file that a copy of [f] to [p] leaves in the destination. *)
Definition copied (clock : string -> Z) (p : string) (f : File) : File :=
  {| contents := contents f; modified := clock p |}.

(** Applying one action to the destination (spec, section 4.4): a copy
    writes the source's bytes, and the destination records [clock p] as the
    modification time of the file it wrote; a delete removes the file when
    [delete] was asked for and is skipped otherwise.  [None] is the failure
    of the backend operation: nothing to read, nothing to delete. *)
Definition apply_action (src : tree) (delete : bool) (clock : string -> Z)
    (dst : tree) (a : Action) : option tree :=
  match a with
  | CopyAction p _ =>
      match src !! p with
      | Some f => Some (<[p := copied clock p f]> dst)
      | None => None
      end
  | DeleteAction p =>
      if delete then
        match dst !! p with
        | Some _ => Some (base.delete p dst)
        | None => None
        end
      else Some dst
  end.

(** Applying actions in turn; the first failure fails the whole call. *)
Fixpoint apply_actions (src : tree) (delete : bool) (clock : string -> Z)
    (dst : tree) (acts : list Action) : option tree :=
  match acts with
  | [] => Some dst
  | a :: acts' =>
      match apply_action src delete clock dst a with
      | Some dst' => apply_actions src delete clock dst' acts'
      | None => None
      end
  end.

(** What a call of [sync] leaves: the paths it reports and the destination. *)
Record synced := { completed : list string; destination : tree }.

(** Modelled from the spec: [syncing.py] is not among the sources.
    [sync(src, dst, executor, delete)] applies the actions of
    [sync_iterator(src, dst)] (spec, section 4.4) and yields the path of
    each; the actions touch disjoint paths, so they are applied here in the
    order they are produced. *)
Definition sync (src dst : tree) (delete : bool) (clock : string -> Z)
  : option synced :=
  let actions := sync_iterator src dst in
  match apply_actions src delete clock dst actions with
  | Some dst' =>
      Some {| completed := action_relpath <$> actions; destination := dst' |}
  | None => None
  end.

(** The (path, size) pairs of a tree. *)
Definition sizes (t : tree) : gmap string Z := file_size <$> t.

(** The aim of a session: the destination has the source's (path, size)
    pairs, and with [delete] no others. *)
Definition in_sync (delete : bool) (src dst : tree) : Prop :=
  if delete then sizes dst = sizes src else sizes src ⊆ sizes dst.

(** Applying exactly [acts] reaches the aim. *)
Definition achieves (src dst : tree) (delete : bool) (clock : string -> Z)
    (acts : list Action) : Prop :=
  exists dst', apply_actions src delete clock dst acts = Some dst' /\
               in_sync delete src dst'.

(** [acts] reaches the aim and no selection of fewer of its actions does. *)
Definition minimal (src dst : tree) (delete : bool) (clock : string -> Z)
    (acts : list Action) : Prop :=
  achieves src dst delete clock acts /\
  forall acts', sublist acts' acts -> achieves src dst delete clock acts' ->
                acts' = acts.

(** What a session leaves at a path, from what the two trees hold there. *)
Definition reconciled (delete : bool) (clock : string -> Z) (p : string)
    (s d : option File) : option File :=
  match s, d with
  | Some f, None => Some (copied clock p f)
  | Some f, Some g =>
      if size_differs_or_newer (entry_of p f) (entry_of p g)
      then Some (copied clock p f) else Some g
  | None, Some g => if delete then None else Some g
  | None, None => None
  end.

(** Claim C6 as a property of a first run: the run that follows it, on
    the trees as the first run left them, has nothing to do. *)
Definition second_run_idle (src dst : tree) (clock : string -> Z) : Prop :=
  forall r, sync src dst true clock = Some r ->
            sync_iterator src (destination r) = [].

(** Claim C1 as a property of trees: on a path of both trees, a
    [CopyAction] is emitted exactly when the sizes differ. *)
Definition size_only (src dst : tree) : Prop :=
  forall p f g, src !! p = Some f -> dst !! p = Some g ->
    ((exists n, In (CopyAction p n) (sync_iterator src dst)) <->
     file_size f <> file_size g).

(** Claim C3 as a property of an iterator that is told the delete flag: a
    path only in the destination gets no action without the flag and one
    [DeleteAction] with it. *)
Definition deletes_on_request (it : tree -> tree -> bool -> list Action) : Prop :=
  forall src dst p, src !! p = None -> is_Some (dst !! p) ->
    (forall a, In a (it src dst false) -> action_relpath a <> p) /\
    count_occ Action_eq_dec (it src dst true) (DeleteAction p) = 1%nat.

(** A source file written at 1500 ms and a destination that records
    modification times in whole seconds: the copy made at 1600 ms is
    recorded at 1000 ms (test, lines 32-33). *)
Definition early_src : tree :=
  {[ "f" := {| contents := "1234"; modified := 1500 |} ]}.

Definition coarse_clock (p : string) : Z := 1600 / 1000 * 1000.

(** ** [test_sync] *)

(** [helpers.unsafe_create_file(path, contents)] at time [now]. *)
Definition unsafe_create_file (p : string) (data : string) (now : Z)
    (t : tree) : tree :=
  <[p := {| contents := data; modified := now |}]> t.

(** The contents of a file created without any ([helpers.py] is not among
    the sources; the assertions of the test do not depend on them). *)
Definition default_contents : string := "".

(** The source tree the test builds, at time [0]. *)
Definition test_src0 : tree :=
  foldr (fun pd t => unsafe_create_file (fst pd) (snd pd) 0 t) ∅
    [("f1", default_contents); ("f2", default_contents);
     ("f3", default_contents); ("alpha/f4", default_contents);
     ("alpha/f5", default_contents); ("alpha/beta/f6", default_contents);
     ("alpha/beta/f7", default_contents);
     ("alpha/beta/gamma/f8", default_contents);
     ("delta/f9", "1234"); ("delta/epsilon/f10", default_contents)].

(** [_listtree(d, base)]: the sorted relative paths. *)
Definition _listtree (t : tree) : list string := relpath <$> sorted_entries t.

Definition action_le (a b : Action) : Prop :=
  String.le (action_relpath a) (action_relpath b).

#[export] Instance action_le_dec : RelDecision action_le.
Proof. intros a b. unfold action_le. apply _. Defined.

(** The destination after the first [sync] of the test, which runs a
    second after the files were created (times in milliseconds). *)
Definition test_dst1 : tree :=
  match sync test_src0 ∅ false (fun _ => 1000) with
  | Some r => destination r
  | None => ∅
  end.

(** The source after [remove(f2)] and the rewrite of [delta/f9]. *)
Definition test_src1 : tree :=
  unsafe_create_file "delta/f9" "ABCD" 1001 (base.delete "f2" test_src0).

(** The body of [test_sync], for an iterator and a driver to be tested:
    the three assertions of the test. *)
Definition test_sync_with
    (iterator : tree -> tree -> list Action)
    (driver : tree -> tree -> bool -> (string -> Z) -> option synced) : bool :=
  match driver test_src0 ∅ false (fun _ => 1000) with
  | None => false
  | Some r1 =>
      let dst1 := destination r1 in
      bool_decide (_listtree test_src0 = _listtree dst1) &&
      bool_decide (merge_sort action_le (iterator test_src1 dst1)
                   = [CopyAction "delta/f9" 4; DeleteAction "f2"]) &&
      match driver test_src1 dst1 true (fun _ => 1002) with
      | None => false
      | Some r2 =>
          bool_decide (_listtree test_src1 = _listtree (destination r2))
      end
  end.

Definition test_sync : bool := test_sync_with sync_iterator sync.

End Syncing.

(** * Facts about read.py *)

Section ReadFacts.
Import Read.
Local Open Scope Z_scope.

Lemma zip_longest_seq {A : Type} (fill : A) (f g : nat -> A) (n a : nat) :
  zip_longest fill (map f (seq a (S n))) (map g (seq a n)) =
  map (fun i => (f i, g i)) (seq a n) ++ [(f (a + n)%nat, fill)].
Proof.
  revert a. induction n as [|n IH]; intros a.
  - simpl. now rewrite Nat.add_0_r.
  - change (seq a (S (S n))) with (a :: seq (S a) (S n)).
    change (seq a (S n)) with (a :: seq (S a) n).
    cbn [map zip_longest app]. rewrite IH.
    now replace (S a + n)%nat with (a + S n)%nat by lia.
Qed.

Lemma chunk_count_pos (size c : Z) :
  0 < size -> 0 < c ->
  chunk_count size c = S (Z.to_nat ((size - 1) / c)).
Proof.
  intros Hs Hc. unfold chunk_count.
  replace (size + c - 1) with ((size - 1) + 1 * c) by lia.
  rewrite Z.div_add by lia.
  assert (0 <= (size - 1) / c) by (apply Z.div_pos; lia).
  rewrite Z2Nat.inj_add by lia. simpl. lia.
Qed.

Lemma chunk_count_zero (c : Z) : 0 < c -> chunk_count 0 c = 0%nat.
Proof.
  intros Hc. unfold chunk_count.
  rewrite Z.div_small by lia. reflexivity.
Qed.

Lemma range_starts (size c : Z) :
  0 <= size -> 0 < c ->
  range 0 size c =
  Some (map (fun i : nat => 0 + Z.of_nat i * c) (seq 0 (chunk_count size c))).
Proof.
  intros Hs Hc. unfold range, range_len.
  destruct (Z.eqb_spec c 0) as [|_]; [lia|].
  destruct (Z.ltb_spec 0 c) as [_|]; [|lia].
  destruct (Z.ltb_spec 0 size) as [Hpos|Hz].
  - rewrite chunk_count_pos by lia. do 3 f_equal.
    replace (size - 1 - 0) with (size - 1) by lia.
    assert (0 <= (size - 1) / c) by (apply Z.div_pos; lia).
    rewrite Z2Nat.inj_add by lia. simpl. lia.
  - replace size with 0 by lia. now rewrite chunk_count_zero.
Qed.

Lemma range_ends (size c : Z) :
  0 <= size -> 0 < c ->
  range c size c =
  Some (map (fun i : nat => c + Z.of_nat i * c)
            (seq 0 (pred (chunk_count size c)))).
Proof.
  intros Hs Hc. unfold range, range_len.
  destruct (Z.eqb_spec c 0) as [|_]; [lia|].
  destruct (Z.ltb_spec 0 c) as [_|]; [|lia].
  destruct (Z.ltb_spec c size) as [Hlt|Hge].
  - rewrite chunk_count_pos by lia. simpl pred. do 3 f_equal.
    replace (size - 1 - c) with ((size - 1) + (-1) * c) by lia.
    rewrite Z.div_add by lia.
    replace ((size - 1) / c + -1 + 1) with ((size - 1) / c) by lia.
    reflexivity.
  - destruct (Z.eq_dec size 0) as [->|Hnz].
    + now rewrite chunk_count_zero.
    + rewrite chunk_count_pos by lia.
      rewrite Z.div_small by lia. reflexivity.
Qed.

Lemma chunk_bound (size c : Z) (i : nat) :
  0 < c -> (S i < chunk_count size c)%nat -> (Z.of_nat i + 1) * c < size.
Proof.
  intros Hc Hi.
  destruct (Z.ltb_spec 0 size) as [Hpos|Hz].
  - rewrite chunk_count_pos in Hi by lia.
    assert (0 <= (size - 1) / c) by (apply Z.div_pos; lia).
    assert (Z.of_nat i + 1 <= (size - 1) / c) by lia.
    pose proof (Z.mul_div_le (size - 1) c Hc). nia.
  - exfalso. unfold chunk_count in Hi.
    assert ((size + c - 1) / c <= 0).
    { apply Z.lt_succ_r. apply Z.div_lt_upper_bound; lia. }
    lia.
Qed.

Lemma chunk_last (size c : Z) (i : nat) :
  0 < c -> 0 <= size -> S i = chunk_count size c ->
  Z.of_nat i * c < size <= (Z.of_nat i + 1) * c.
Proof.
  intros Hc Hs Hi.
  destruct (Z.eq_dec size 0) as [->|Hnz].
  - rewrite chunk_count_zero in Hi by lia. discriminate.
  - rewrite chunk_count_pos in Hi by lia.
    assert (0 <= (size - 1) / c) by (apply Z.div_pos; lia).
    assert (Z.of_nat i = (size - 1) / c) as -> by lia.
    pose proof (Z.mul_div_le (size - 1) c Hc).
    pose proof (Z.mul_succ_div_gt (size - 1) c Hc). lia.
Qed.

(** The ranges that the source builds with [zip_longest] are the chunks. *)
Lemma byte_ranges_chunks (size c : Z) :
  0 <= size -> 0 < c -> byte_ranges size c = Some (chunks size c).
Proof.
  intros Hs Hc. unfold byte_ranges.
  rewrite range_starts, range_ends by assumption.
  f_equal. unfold chunks.
  destruct (chunk_count size c) as [|n] eqn:Hk; [reflexivity|].
  simpl pred. rewrite zip_longest_seq.
  rewrite seq_S, map_app. simpl. f_equal.
  - apply map_ext_in. intros i Hi. apply in_seq in Hi.
    assert ((Z.of_nat i + 1) * c < size) by (apply chunk_bound; lia).
    unfold nth_chunk. apply pair_equal_spec. split; lia.
  - pose proof (chunk_last size c n Hc Hs (eq_sym Hk)).
    unfold nth_chunk. f_equal. apply pair_equal_spec. split; lia.
Qed.

Lemma chunks_lookup (size c : Z) (i : nat) (r : ByteRange) :
  chunks size c !! i = Some r ->
  (i < chunk_count size c)%nat /\ r = nth_chunk size c i.
Proof.
  unfold chunks. intros H.
  apply list_lookup_fmap_Some in H as (j & Hr & Hj).
  apply lookup_seq in Hj as [-> Hlt]. simpl in Hr. auto.
Qed.

Lemma chunks_length (size c : Z) :
  length (chunks size c) = chunk_count size c.
Proof. unfold chunks. now rewrite length_map, length_seq. Qed.

Lemma chunks_tiles (size c : Z) :
  0 <= size -> 0 < c -> tiles size c (chunks size c).
Proof.
  intros Hs Hc.
  assert (Hnth : forall i s e, chunks size c !! i = Some (s, e) ->
            (i < chunk_count size c)%nat /\ s = Z.of_nat i * c /\
            e = Z.min ((Z.of_nat i + 1) * c) size /\ s < e).
  { intros i s e H. apply chunks_lookup in H as [Hi Hr].
    unfold nth_chunk in Hr. injection Hr as -> ->.
    repeat split; [assumption|].
    destruct (Nat.eq_dec (S i) (chunk_count size c)) as [Hl|Hl].
    - pose proof (chunk_last size c i Hc Hs Hl). lia.
    - assert ((Z.of_nat i + 1) * c < size) by (apply chunk_bound; lia). lia. }
  split.
  - intros i s e H. now apply Hnth in H.
  - intros i s e H. now apply Hnth in H.
  - intros i s e s' e' H H'.
    apply Hnth in H as (Hi & -> & -> & _). apply Hnth in H' as (Hi' & -> & _).
    assert ((Z.of_nat i + 1) * c < size) by (apply chunk_bound; lia). lia.
  - intros i s e H Hlen. rewrite chunks_length in Hlen.
    apply Hnth in H as (Hi & -> & -> & _).
    assert ((Z.of_nat i + 1) * c < size) by (apply chunk_bound; lia). lia.
  - intros i s e H Hlen. rewrite chunks_length in Hlen.
    apply Hnth in H as (Hi & -> & -> & _).
    pose proof (chunk_last size c i Hc Hs Hlen). lia.
  - intros i j s e s' e' Hij H H'.
    apply Hnth in H as (Hi & -> & -> & _). apply Hnth in H' as (Hj & -> & _).
    assert (Z.of_nat i + 1 <= Z.of_nat j) by lia. nia.
  - intros x. split.
    + intros [Hx0 Hx].
      assert (Hq : 0 <= x / c) by (apply Z.div_pos; lia).
      pose proof (Z.mul_div_le x c Hc). pose proof (Z.mul_succ_div_gt x c Hc).
      assert (Hk : (Z.to_nat (x / c) < chunk_count size c)%nat).
      { rewrite chunk_count_pos by lia.
        assert (x / c <= (size - 1) / c) by (apply Z.div_le_mono; lia). lia. }
      exists (x / c * c), (Z.min ((x / c + 1) * c) size). split; [|lia].
      unfold chunks. apply in_map_iff. exists (Z.to_nat (x / c)). split.
      * unfold nth_chunk. rewrite Z2Nat.id by lia. reflexivity.
      * apply in_seq. lia.
    + intros (s & e & Hin & Hx).
      apply list_elem_of_In, list_elem_of_lookup in Hin as [i Hi].
      apply Hnth in Hi as (_ & -> & -> & _). split; [nia|lia].
Qed.

(** C9: for [size >= 0] and [chunk_size > 0], the byte ranges handed to
    [map_ordered] by [_cloud_read_stream] (and to [map_unordered] by
    [read_stream_unordered]) are the consecutive half-open ranges
    [(0, c), (c, 2c), ..., ((k-1)c, size)]: increasing, non-overlapping,
    covering [0, size) exactly, all of length [c] except possibly the last,
    and none at all when [size = 0]. *)
Theorem cloud_read_stream_byte_ranges (size c getsize : Z) :
  0 <= size -> 0 < c ->
  _cloud_read_stream getsize c (Some size)
    = Some {| mapping := Ordered; inputs := chunks size c |} /\
  _cloud_read_stream size c None
    = Some {| mapping := Ordered; inputs := chunks size c |} /\
  read_stream_unordered getsize c (Some size)
    = Some {| mapping := Unordered; inputs := chunks size c |} /\
  read_stream_unordered size c None
    = Some {| mapping := Unordered; inputs := chunks size c |} /\
  tiles size c (chunks size c) /\
  (size = 0 -> chunks size c = []).
Proof.
  intros Hs Hc. unfold _cloud_read_stream, read_stream_unordered.
  rewrite byte_ranges_chunks by assumption.
  do 4 (split; [reflexivity|]).
  split; [now apply chunks_tiles|].
  intros ->. unfold chunks. now rewrite chunk_count_zero.
Qed.

Lemma cloud_read_stream_byte_ranges_witness :
  _cloud_read_stream 0 3 (Some 10)
    = Some {| mapping := Ordered;
              inputs := [(0, 3); (3, 6); (6, 9); (9, 10)] |} /\
  tiles 10 3 [(0, 3); (3, 6); (6, 9); (9, 10)].
Proof.
  destruct (cloud_read_stream_byte_ranges 10 3 0) as (H1 & _ & _ & _ & H2 & _);
    [lia | lia |].
  split; [exact H1 | exact H2].
Defined.

(** Ranges of a stream over a file of non-negative size start at a
    non-negative offset and are not empty, whatever the chunk size. *)
Lemma byte_ranges_bounds (size c : Z) (rs : list ByteRange) (s e : Z) :
  0 <= size -> byte_ranges size c = Some rs -> In (s, e) rs -> 0 <= s < e.
Proof.
  intros Hs Hrs Hin.
  destruct (Z.lt_trichotomy c 0) as [Hneg|[->|Hpos]].
  - exfalso. revert Hrs. unfold byte_ranges, range, range_len.
    destruct (Z.eqb_spec c 0) as [|_]; [lia|].
    destruct (Z.ltb_spec 0 c) as [|_]; [lia|].
    destruct (Z.ltb_spec size 0) as [|_]; [lia|].
    destruct (Z.ltb_spec size c) as [|_]; [lia|].
    simpl. intros [= <-]. destruct Hin.
  - discriminate Hrs.
  - rewrite byte_ranges_chunks in Hrs by lia. injection Hrs as <-.
    destruct (chunks_tiles size c Hs Hpos) as [Hst Hne _ _ _ _ _].
    apply list_elem_of_In, list_elem_of_lookup in Hin as [i Hi].
    pose proof (Hst _ _ _ Hi). pose proof (Hne _ _ _ Hi). nia.
Qed.

(** C10: every byte range [(start, end)] that [_cloud_read_stream] or
    [read_stream_unordered] produces for a file of non-negative size has
    [0 <= start < end]; both components are integers, so
    [_byte_range_to_str] answers ["bytes={start}-{end-1}"] and never reaches
    its [AssertionError]. *)
Theorem byte_range_to_str_of_stream
    (getsize c : Z) (size : option Z) (b : boostable) (s e : Z) :
  0 <= getsize ->
  (forall n, size = Some n -> 0 <= n) ->
  _cloud_read_stream getsize c size = Some b \/
    read_stream_unordered getsize c size = Some b ->
  In (s, e) (inputs b) ->
  0 <= s < e /\
  range_header (s, e) = inl ("bytes=" +:+ py_str s +:+ "-" +:+ py_str (e - 1)) /\
  range_header (s, e) <> inr AssertionError.
Proof.
  intros Hg Hsz Hb Hin.
  split; [|split; [reflexivity | discriminate]].
  pose (n := match size with None => getsize | Some n => n end).
  assert (Hn : 0 <= n) by (subst n; destruct size; auto).
  assert (Hrs : byte_ranges n c = Some (inputs b)).
  { unfold _cloud_read_stream, read_stream_unordered in Hb. fold n in Hb.
    destruct (byte_ranges n c) as [rs|]; [|destruct Hb; discriminate].
    destruct Hb as [[= <-]|[= <-]]; reflexivity. }
  exact (byte_ranges_bounds n c _ s e Hn Hrs Hin).
Qed.

Lemma byte_range_to_str_of_stream_witness :
  0 <= 9 < 10 /\ range_header (9, 10) = inl "bytes=9-9".
Proof.
  destruct (byte_range_to_str_of_stream 0 3 (Some 10)
              {| mapping := Ordered;
                 inputs := [(0, 3); (3, 6); (6, 9); (9, 10)] |} 9 10)
    as (H1 & H2 & _).
  - lia.
  - intros n [= <-]. lia.
  - left. reflexivity.
  - simpl. tauto.
  - split; [exact H1 | exact H2].
Defined.

(** ** Chunk sizes that are not positive *)

(** X1: a chunk size of zero makes both cloud streams raise the
    [ValueError] of [range], whatever the size; a negative chunk size makes
    them produce no byte range at all for a file of any non-negative size,
    so that nothing of the file is read. *)
Theorem cloud_read_stream_bad_chunk_size (getsize c : Z) (size : option Z) :
  let n := match size with None => getsize | Some n => n end in
  (c = 0 ->
     _cloud_read_stream getsize c size = None /\
     read_stream_unordered getsize c size = None) /\
  (c < 0 -> 0 <= n ->
     _cloud_read_stream getsize c size
       = Some {| mapping := Ordered; inputs := [] |} /\
     read_stream_unordered getsize c size
       = Some {| mapping := Unordered; inputs := [] |}).
Proof.
  intros n. unfold _cloud_read_stream, read_stream_unordered. fold n. split.
  - intros ->. now split.
  - intros Hc Hn.
    assert (byte_ranges n c = Some []) as ->; [|now split].
    unfold byte_ranges, range, range_len.
    destruct (Z.eqb_spec c 0) as [|_]; [lia|].
    destruct (Z.ltb_spec 0 c) as [|_]; [lia|].
    destruct (Z.ltb_spec n 0) as [|_]; [lia|].
    destruct (Z.ltb_spec n c) as [|_]; [lia|].
    reflexivity.
Qed.

Lemma cloud_read_stream_bad_chunk_size_witness :
  _cloud_read_stream 0 (-4) (Some 10)
  = Some {| mapping := Ordered; inputs := [] |}.
Proof.
  destruct (cloud_read_stream_bad_chunk_size 0 (-4) (Some 10)) as [_ Hneg].
  exact (proj1 (Hneg ltac:(lia) ltac:(lia))).
Defined.

(** ** How many ranges, and how many bytes *)

Lemma chunk_count_full (size c : Z) :
  0 <= size -> 0 < c -> size <= Z.of_nat (chunk_count size c) * c.
Proof.
  intros Hs Hc. destruct (chunk_count size c) as [|k] eqn:Hk.
  - destruct (Z.eq_dec size 0) as [->|Hnz]; [lia|].
    rewrite chunk_count_pos in Hk by lia. discriminate.
  - pose proof (chunk_last size c k Hc Hs (eq_sym Hk)). lia.
Qed.

Lemma chunk_start_inside (size c : Z) (i : nat) :
  0 <= size -> 0 < c -> (i < chunk_count size c)%nat -> Z.of_nat i * c < size.
Proof.
  intros Hs Hc Hi.
  destruct (Nat.eq_dec (S i) (chunk_count size c)) as [Hl|Hl].
  - pose proof (chunk_last size c i Hc Hs Hl). lia.
  - assert ((Z.of_nat i + 1) * c < size) by (apply chunk_bound; lia). lia.
Qed.

Lemma total_length_prefix (size c : Z) (j : nat) :
  0 <= size -> 0 < c -> (j <= chunk_count size c)%nat ->
  total_length (map (nth_chunk size c) (seq 0 j)) = Z.min (Z.of_nat j * c) size.
Proof.
  intros Hs Hc. induction j as [|j IH]; intros Hj.
  - simpl. lia.
  - rewrite seq_S, map_app. unfold total_length in *.
    rewrite foldr_app. simpl.
    assert (Hin : Z.of_nat j * c < size) by (apply chunk_start_inside; lia).
    specialize (IH ltac:(lia)). rewrite Z.min_l in IH by lia.
    assert (Hshift : forall (l : list ByteRange) (a : Z),
               foldr (fun r acc => snd r - fst r + acc) a l
               = foldr (fun r acc => snd r - fst r + acc) 0 l + a).
    { clear. induction l as [|r l IHl]; intros a; simpl; [lia|].
      rewrite IHl. lia. }
    rewrite Hshift, IH. lia.
Qed.

(** X2: for [size >= 0] and [chunk_size > 0] the stream is cut into
    [ceil(size / chunk_size)] byte ranges, whose lengths add up to [size]. *)
Theorem byte_ranges_count_and_total (size c : Z) (rs : list ByteRange) :
  0 <= size -> 0 < c -> byte_ranges size c = Some rs ->
  Z.of_nat (length rs) = (size + c - 1) / c /\ total_length rs = size.
Proof.
  intros Hs Hc Hrs. rewrite byte_ranges_chunks in Hrs by assumption.
  injection Hrs as <-. split.
  - rewrite chunks_length. unfold chunk_count. apply Z2Nat.id.
    apply Z.div_pos; lia.
  - unfold chunks. rewrite total_length_prefix by (assumption || lia).
    pose proof (chunk_count_full size c Hs Hc). lia.
Qed.

Lemma byte_ranges_count_and_total_witness :
  Z.of_nat (length [(0, 3); (3, 6); (6, 9); (9, 10)]) = (10 + 3 - 1) / 3 /\
  total_length [(0, 3); (3, 6); (6, 9); (9, 10)] = 10.
Proof.
  apply (byte_ranges_count_and_total 10 3); [lia | lia | reflexivity].
Defined.

(** ** The local stream *)

Lemma file_read_app {A : Type} (n : Z) (rest : list A) :
  fst (file_read n rest) ++ snd (file_read n rest) = rest.
Proof.
  unfold file_read. destruct (n <? 0); simpl.
  - apply app_nil_r.
  - apply take_drop.
Qed.

Lemma file_read_nothing {A : Type} (n : Z) (rest : list A) :
  n <> 0 -> fst (file_read n rest) = [] -> rest = [].
Proof.
  unfold file_read. destruct (Z.ltb_spec n 0) as [|Hn]; simpl; [auto|].
  intros Hnz Htake. destruct rest as [|x rest]; [reflexivity|].
  destruct (Z.to_nat n) eqn:Hz; [lia | discriminate].
Qed.

Lemma file_read_shorter {A : Type} (n : Z) (rest : list A) :
  fst (file_read n rest) <> [] ->
  (length (snd (file_read n rest)) < length rest)%nat.
Proof.
  unfold file_read. destruct (Z.ltb_spec n 0) as [|Hn]; simpl.
  - destruct rest; [congruence | simpl; lia].
  - intros Hdata. rewrite length_drop.
    destruct rest as [|x rest]; [now rewrite take_nil in Hdata|].
    destruct (Z.to_nat n); [now contradiction Hdata | simpl; lia].
Qed.

(** The generator returns, yields no empty piece and, unless the chunk
    size is zero, yields the whole of what was left. *)
Lemma local_iterator_returns {A : Type} (c : Z) (fuel : nat) :
  forall rest : list A,
  (length rest < fuel)%nat ->
  exists ys, local_iterator fuel c rest = Some ys /\
             Forall (fun y => y <> []) ys /\
             (c <> 0 -> concat ys = rest).
Proof.
  induction fuel as [|fuel IH]; intros rest Hfuel; [lia|].
  simpl.
  pose proof (file_read_app c rest) as Happ.
  pose proof (file_read_nothing c rest) as Hnothing.
  pose proof (file_read_shorter c rest) as Hshorter.
  destruct (file_read c rest) as [data rest']. simpl in *.
  destruct data as [|x data].
  - exists []. split; [reflexivity|]. split; [constructor|].
    intros Hc. symmetry. now apply Hnothing.
  - destruct (IH rest') as (ys & -> & Hne & Hcat).
    { specialize (Hshorter ltac:(discriminate)). lia. }
    exists ((x :: data) :: ys). split; [reflexivity|].
    split; [constructor; [discriminate | assumption]|].
    intros Hc. simpl. now rewrite (Hcat Hc).
Qed.

(** X3: [_local_read_stream] always returns and never yields an empty
    piece.  With a chunk size other than zero the pieces it yields make up
    the whole content, in order; with a negative chunk size the content comes
    as one piece; with a chunk size of zero nothing is yielded, whatever the
    file holds. *)
Theorem local_read_stream_pieces {A : Type} (c : Z) (content : list A) :
  exists ys,
    _local_read_stream c content = Some ys /\
    Forall (fun y => y <> []) ys /\
    (c <> 0 -> concat ys = content) /\
    (c = 0 -> ys = []) /\
    (c < 0 -> content <> [] -> ys = [content]).
Proof.
  unfold _local_read_stream.
  destruct (local_iterator_returns c (S (length content)) content)
    as (ys & Hrun & Hne & Hcat); [lia|].
  exists ys. split; [assumption|]. split; [assumption|].
  split; [assumption|]. split.
  - intros ->. simpl in Hrun. unfold file_read in Hrun. simpl in Hrun.
    now injection Hrun as <-.
  - intros Hc Hcontent. destruct content as [|x content]; [congruence|].
    simpl in Hrun. unfold file_read in Hrun.
    destruct (Z.ltb_spec c 0) as [_|]; [|lia].
    destruct content; simpl in Hrun; now injection Hrun as <-.
Qed.

Lemma bytes_at_nth_chunk {A : Type} (c : Z) (content : list A) (i : nat) :
  0 < c ->
  bytes_at content (nth_chunk (Z.of_nat (length content)) c i)
  = take (Z.to_nat c) (drop (i * Z.to_nat c) content).
Proof.
  intros Hc. unfold bytes_at, nth_chunk. simpl.
  replace (Z.to_nat (Z.of_nat i * c)) with (i * Z.to_nat c)%nat by nia.
  set (rest := drop (i * Z.to_nat c) content).
  assert (Hlen : length rest = (length content - i * Z.to_nat c)%nat)
    by apply length_drop.
  destruct (Z.le_gt_cases ((Z.of_nat i + 1) * c) (Z.of_nat (length content)))
    as [Hle|Hgt].
  - rewrite Z.min_l by assumption. f_equal. lia.
  - rewrite Z.min_r by lia.
    rewrite (take_ge rest (Z.to_nat c)) by nia.
    apply take_ge. nia.
Qed.

Lemma local_iterator_chunks {A : Type} (c : Z) (content : list A) :
  0 < c ->
  forall (fuel j : nat),
  (j <= chunk_count (Z.of_nat (length content)) c)%nat ->
  (length (drop (j * Z.to_nat c) content) < fuel)%nat ->
  local_iterator fuel c (drop (j * Z.to_nat c) content)
  = Some (map (fun i => take (Z.to_nat c) (drop (i * Z.to_nat c) content))
              (seq j (chunk_count (Z.of_nat (length content)) c - j))).
Proof.
  intros Hc. set (k := chunk_count (Z.of_nat (length content)) c).
  set (n := Z.to_nat c).
  induction fuel as [|fuel IH]; intros j Hj Hfuel; [lia|].
  simpl. unfold file_read. destruct (Z.ltb_spec c 0) as [|_]; [lia|].
  fold n. rewrite drop_drop.
  destruct (Nat.eq_dec j k) as [->|Hjk].
  - pose proof (chunk_count_full (Z.of_nat (length content)) c
                  ltac:(lia) Hc) as Hfull. fold k in Hfull.
    rewrite (drop_ge content (k * n)) by (subst n; nia).
    rewrite take_nil, Nat.sub_diag. reflexivity.
  - pose proof (chunk_start_inside (Z.of_nat (length content)) c j
                  ltac:(lia) Hc ltac:(subst k; lia)) as Hin.
    assert (Hrest : (0 < length (drop (j * n) content))%nat).
    { rewrite length_drop. subst n. nia. }
    destruct (take n (drop (j * n) content)) as [|x data] eqn:Hdata.
    + exfalso. apply (f_equal length) in Hdata.
      rewrite length_take in Hdata. simpl in Hdata. subst n. lia.
    + replace (j * n + n)%nat with (S j * n)%nat by lia.
      rewrite IH.
      * replace (k - j)%nat with (S (k - S j)) by lia. simpl.
        now rewrite Hdata.
      * lia.
      * rewrite length_drop in Hfuel |- *. subst n. nia.
Qed.

(** X4: with a positive chunk size, the pieces that [_local_read_stream]
    yields for a file are the bytes of the byte ranges that
    [_cloud_read_stream] asks for at the same size and chunk size, in the
    same order: both streams cut a content at the same offsets. *)
Theorem local_read_stream_matches_byte_ranges {A : Type} (c : Z)
    (content : list A) :
  0 < c ->
  exists rs,
    byte_ranges (Z.of_nat (length content)) c = Some rs /\
    _local_read_stream c content = Some (map (bytes_at content) rs).
Proof.
  intros Hc. exists (chunks (Z.of_nat (length content)) c).
  split; [apply byte_ranges_chunks; lia|].
  unfold _local_read_stream.
  pose proof (local_iterator_chunks c content Hc (S (length content)) 0)
    as Hrun.
  change (drop (0 * Z.to_nat c) content) with content in Hrun.
  rewrite Hrun by lia. f_equal.
  rewrite Nat.sub_0_r. unfold chunks. rewrite map_map.
  apply map_ext. intros i. symmetry. now apply bytes_at_nth_chunk.
Qed.

Lemma local_read_stream_matches_byte_ranges_witness :
  exists rs,
    byte_ranges 7 3 = Some rs /\
    _local_read_stream 3 [1; 2; 3; 4; 5; 6; 7]
    = Some (map (bytes_at [1; 2; 3; 4; 5; 6; 7]) rs).
Proof.
  apply (local_read_stream_matches_byte_ranges 3 [1; 2; 3; 4; 5; 6; 7]). lia.
Defined.

(** X5: for [chunk_size > 0] the byte ranges of a stream cut any content
    of [size] items into consecutive pieces: putting the bytes of the ranges
    one after the other, in the order of the ranges, gives the content
    back. *)
Theorem byte_ranges_partition {A : Type} (c : Z) (content : list A)
    (rs : list ByteRange) :
  0 < c ->
  byte_ranges (Z.of_nat (length content)) c = Some rs ->
  concat (map (bytes_at content) rs) = content.
Proof.
  intros Hc Hrs. rewrite byte_ranges_chunks in Hrs by lia.
  injection Hrs as <-.
  destruct (local_iterator_returns c (S (length content)) content)
    as (ys & Hrun & _ & Hcat); [lia|].
  pose proof (local_iterator_chunks c content Hc (S (length content)) 0)
    as Hchunks.
  change (drop (0 * Z.to_nat c) content) with content in Hchunks.
  rewrite Hchunks in Hrun by lia.
  injection Hrun as <-. specialize (Hcat ltac:(lia)).
  rewrite Nat.sub_0_r in Hcat.
  etransitivity; [|exact Hcat]. f_equal.
  unfold chunks. rewrite map_map.
  apply map_ext. intros i. now apply bytes_at_nth_chunk.
Qed.

Lemma byte_ranges_partition_witness :
  concat (map (bytes_at [1; 2; 3; 4; 5; 6; 7]) [(0, 3); (3, 6); (6, 7)])
  = [1; 2; 3; 4; 5; 6; 7].
Proof.
  apply (byte_ranges_partition 3 [1; 2; 3; 4; 5; 6; 7]); [lia | reflexivity].
Defined.

(** ** Headers tell ranges apart *)

Lemma dash_free_app (u v : string) :
  dash_free (u +:+ v) = dash_free u && dash_free v.
Proof.
  induction u as [|a u IH]; [reflexivity|].
  change (String a u +:+ v) with (String a (u +:+ v)). simpl.
  now rewrite IH, andb_assoc.
Qed.

Lemma string_app_assoc (u v w : string) : (u +:+ v) +:+ w = u +:+ v +:+ w.
Proof.
  induction u as [|a u IH]; [reflexivity|].
  change (String a ((u +:+ v) +:+ w) = String a (u +:+ v +:+ w)).
  now rewrite IH.
Qed.

Lemma dash_free_digit (x : N) :
  dash_free (String (pretty_N_char x) "") = true.
Proof. unfold pretty_N_char. now repeat case_match. Qed.

Lemma pretty_N_go_digits (x : N) :
  forall s, exists d, pretty_N_go x s = d +:+ s /\ dash_free d = true.
Proof.
  induction (N.lt_wf_0 x) as [x _ IH]. intros s.
  assert (x = 0 \/ 0 < x)%N as [->|Hpos] by lia.
  - exists "". now rewrite pretty_N_go_0.
  - rewrite pretty_N_go_step by assumption.
    destruct (IH (x `div` 10)%N) with (s := String (pretty_N_char (x `mod` 10)) s)
      as (d & -> & Hd); [now apply N.div_lt|].
    exists (d +:+ String (pretty_N_char (x `mod` 10)) ""). split.
    + now rewrite string_app_assoc.
    + now rewrite dash_free_app, Hd, dash_free_digit.
Qed.

Lemma py_str_dash_free (n : Z) : 0 <= n -> dash_free (py_str n) = true.
Proof.
  intros Hn. unfold py_str, pretty, pretty_Z.
  destruct n as [|p|p]; [reflexivity| |lia].
  unfold pretty, pretty_positive, pretty, pretty_N.
  destruct (decide (N.pos p = 0%N)); [reflexivity|].
  destruct (pretty_N_go_digits (N.pos p) "") as (d & -> & Hd).
  now rewrite dash_free_app, Hd.
Qed.

Lemma split_at_dash (u1 u2 t1 t2 : string) :
  dash_free u1 = true -> dash_free u2 = true ->
  u1 +:+ "-" +:+ t1 = u2 +:+ "-" +:+ t2 -> u1 = u2 /\ t1 = t2.
Proof.
  revert u2. induction u1 as [|a u1 IH]; intros [|b u2] H1 H2 Heq.
  - change (String "-"%char t1 = String "-"%char t2) in Heq. now injection Heq as ->.
  - exfalso. change (String "-"%char t1 = String b (u2 +:+ "-" +:+ t2)) in Heq.
    injection Heq as <- _. simpl in H2. discriminate.
  - exfalso. change (String a (u1 +:+ "-" +:+ t1) = String "-"%char t2) in Heq.
    injection Heq as -> _. simpl in H1. discriminate.
  - change (String a (u1 +:+ "-" +:+ t1) = String b (u2 +:+ "-" +:+ t2)) in Heq.
    injection Heq as -> Heq. simpl in H1, H2.
    apply andb_true_iff in H1 as [_ H1]. apply andb_true_iff in H2 as [_ H2].
    destruct (IH u2 H1 H2 Heq) as [-> ->]. now split.
Qed.

(** X6: [_byte_range_to_str] tells byte ranges apart: two ranges with
    integer bounds and non-negative starts that get the same header are the
    same range. *)
Theorem byte_range_to_str_injective (s1 e1 s2 e2 : Z) :
  0 <= s1 -> 0 <= s2 ->
  _byte_range_to_str (Some s1, Some e1) = _byte_range_to_str (Some s2, Some e2) ->
  s1 = s2 /\ e1 = e2.
Proof.
  intros H1 H2 Heq. simpl in Heq. injection Heq as Heq.
  change (py_str s1 +:+ "-" +:+ py_str (e1 - 1)
          = py_str s2 +:+ "-" +:+ py_str (e2 - 1)) in Heq.
  apply split_at_dash in Heq as [Hs He]; try now apply py_str_dash_free.
  apply (inj pretty) in Hs. apply (inj pretty) in He. lia.
Qed.

Lemma byte_range_to_str_injective_witness : 3 = 3 /\ 6 = 6.
Proof.
  apply (byte_range_to_str_injective 3 6 3 6); [lia | lia | reflexivity].
Defined.

End ReadFacts.

(** * Facts about delete.py *)

Section DeleteFacts.
Import Delete.
Context `{PathOps} {W : Type} `{Backend W}.

Abbreviation loop := (map_unordered remove_wrapper_enter remove_wrapper_finish
                                yield_path).

Lemma remove_directory_like (p : CloudPath) (st : state W) :
  is_directory_like p = true -> remove p st = (Raise IsADirectoryError, st).
Proof.
  intros Hd. destruct p as [a|g]; simpl;
    unfold _azure_remove, _google_remove; now rewrite Hd.
Qed.

Lemma remove_file_like (p : CloudPath) (st : state W) :
  is_directory_like p = false ->
  remove p st = execute_reponseless (delete_request p) st.
Proof.
  intros Hd. destruct p as [a|g]; simpl;
    unfold _azure_remove, _google_remove; now rewrite Hd.
Qed.

Lemma execute_trace (r : Request) (st : state W) :
  trace (snd (execute_reponseless r st)) = trace st ++ [Sent r] /\
  world (snd (execute_reponseless r st)) = snd (respond r (world st)).
Proof.
  unfold execute_reponseless. destruct (respond r (world st)) as [status w'].
  destruct (existsb _ _); [now split|].
  destruct (dict_get _ _); now split.
Qed.

Lemma execute_outcome (p : CloudPath) (st : state W) :
  let status := fst (respond (delete_request p) (world st)) in
  fst (execute_reponseless (delete_request p) st) =
    if Z.eqb status (deleted_status p) then Done tt
    else if Z.eqb status 404 then Raise (FileNotFoundError None)
    else Raise (RequestFailure status).
Proof.
  unfold execute_reponseless.
  destruct (respond (delete_request p) (world st)) as [status w'].
  destruct p; simpl; rewrite orb_false_r;
    destruct (Z.eqb status _); try reflexivity;
    destruct (Z.eqb status 404); reflexivity.
Qed.

(** What [remove_wrapper], once entered, does to the state. *)
Lemma finish_cases (e : CloudPath) (st : state W) :
  (fst (remove_wrapper_finish e st) = Done e /\
   is_directory_like e = false /\
   fst (respond (delete_request e) (world st)) = deleted_status e /\
   world (snd (remove_wrapper_finish e st))
     = snd (respond (delete_request e) (world st)) /\
   trace (snd (remove_wrapper_finish e st))
     = trace st ++ [Sent (delete_request e)]) \/
  (exists x, fst (remove_wrapper_finish e st) = Raise x /\ remove_error x /\
     checked (trace (snd (remove_wrapper_finish e st))) = checked (trace st) /\
     yielded (trace (snd (remove_wrapper_finish e st))) = yielded (trace st)).
Proof.
  unfold remove_wrapper_finish, bind.
  destruct (is_directory_like e) eqn:Hd.
  - right. rewrite remove_directory_like by assumption.
    exists IsADirectoryError. unfold remove_error. simpl. auto.
  - rewrite remove_file_like by assumption.
    pose proof (execute_outcome e st) as Ho.
    pose proof (execute_trace (delete_request e) st) as [Ht Hw].
    destruct (execute_reponseless (delete_request e) st) as [o st1].
    simpl in *.
    destruct (Z.eqb_spec (fst (respond (delete_request e) (world st)))
                         (deleted_status e)) as [Hs|Hs].
    + left. subst o. simpl. auto.
    + right.
      destruct (Z.eqb _ 404); subst o; simpl; eexists;
        (split; [reflexivity|]);
        unfold checked, yielded; rewrite Ht, !omap_app; simpl;
        rewrite !app_nil_r; unfold remove_error; eauto 6.
Qed.

(** C8: on an Azure or Google path that is directory-like, [remove] raises
    [IsADirectoryError] and sends nothing to the service; on a path that is
    not directory-like and that the service does not have (it answers 404
    to the delete request), [remove] raises [FileNotFoundError]. *)
Theorem remove_cloud_errors (p : CloudPath) (st : state W) :
  (is_directory_like p = true ->
     remove p st = (Raise IsADirectoryError, st) /\
     sent (trace (snd (remove p st))) = sent (trace st)) /\
  (is_directory_like p = false ->
     fst (respond (delete_request p) (world st)) = 404%Z ->
     fst (remove p st) = Raise (FileNotFoundError None) /\
     sent (trace (snd (remove p st)))
       = sent (trace st) ++ [delete_request p] /\
     match p with
     | Azure a => remove p st = _azure_remove a st
     | Google g => remove p st = _google_remove g st
     end).
Proof.
  split.
  - intros Hd. rewrite remove_directory_like by assumption. now split.
  - intros Hd H404. rewrite remove_file_like by assumption.
    pose proof (execute_outcome p st) as Ho. simpl in Ho.
    pose proof (execute_trace (delete_request p) st) as [Ht _].
    rewrite H404 in Ho. split; [|split].
    + rewrite Ho. now destruct p.
    + unfold sent. rewrite Ht, omap_app. reflexivity.
    + rewrite <- remove_file_like by assumption. now destruct p.
Qed.

Lemma next_action_stop {A : Type} (slots : nat) (sched : list choice)
    (pending inflight : list A) :
  (0 < slots)%nat ->
  next_action slots sched pending inflight = Stop ->
  pending = [] /\ inflight = [].
Proof.
  intros Hs. unfold next_action.
  destruct inflight as [|b inflight].
  - destruct pending as [|a pending]; [auto|].
    simpl. destruct (Nat.ltb_spec 0 slots); [discriminate|lia].
  - destruct sched as [|[|i] ?]; try discriminate;
      destruct pending; try discriminate;
      destruct (_ <? _)%nat; discriminate.
Qed.

Lemma next_action_pull {A : Type} (slots : nat) (sched : list choice)
    (pending inflight : list A) :
  next_action slots sched pending inflight = DoPull ->
  exists a rest, pending = a :: rest.
Proof.
  unfold next_action. destruct pending as [|a rest]; [|eauto].
  destruct inflight; [discriminate|]. destruct sched as [|[|i] ?]; discriminate.
Qed.

Lemma next_action_complete {A : Type} (slots : nat) (sched : list choice)
    (pending inflight : list A) (i : nat) :
  next_action slots sched pending inflight = DoComplete i ->
  exists a, inflight !! i = Some a.
Proof.
  unfold next_action. destruct inflight as [|b inflight].
  - destruct pending; [discriminate|]. destruct (_ <? _)%nat; discriminate.
  - intros Hi. apply lookup_lt_is_Some.
    destruct sched as [|[|j] ?].
    + destruct pending; [|destruct (_ <? _)%nat]; try discriminate;
        injection Hi as <-; simpl; lia.
    + destruct pending; [|destruct (_ <? _)%nat]; try discriminate;
        injection Hi as <-; simpl; lia.
    + injection Hi as Hi. simpl. lia.
Qed.

Lemma enter_run (e : CloudPath) (f : frame) (st : state W) :
  remove_wrapper_enter e f st =
  (Done {| subpath_exists := true; path := path f |},
   {| world := world st; trace := trace st ++ [Called e] |}).
Proof. reflexivity. Qed.

Lemma yield_run (p : CloudPath) (f : frame) (st : state W) :
  yield_path p f st =
  (Done {| subpath_exists := subpath_exists f; path := p |},
   {| world := world st; trace := trace st ++ [Yielded p] |}).
Proof. reflexivity. Qed.

(** One round of the loop, by what the mapping does next. *)
Lemma loop_pull (ex : BoostExecutor) (fuel : nat) (sched : list choice)
    (a : CloudPath) (rest inflight : list CloudPath) (f : frame)
    (st : state W) :
  next_action (Pos.to_nat (concurrency ex)) sched (a :: rest) inflight
    = DoPull ->
  loop ex (S fuel) sched (a :: rest) inflight f st =
  loop ex fuel (tail sched) rest (inflight ++ [a])
       {| subpath_exists := true; path := path f |}
       {| world := world st; trace := trace st ++ [Called a] |}.
Proof. intros Hn. simpl. rewrite Hn. reflexivity. Qed.

Lemma loop_complete (ex : BoostExecutor) (fuel : nat) (sched : list choice)
    (pending inflight : list CloudPath) (i : nat) (a : CloudPath) (f : frame)
    (st : state W) :
  next_action (Pos.to_nat (concurrency ex)) sched pending inflight
    = DoComplete i ->
  inflight !! i = Some a ->
  loop ex (S fuel) sched pending inflight f st =
  match remove_wrapper_finish a st with
  | (Done b, st1) =>
      loop ex fuel (tail sched) pending (delete i inflight)
           {| subpath_exists := subpath_exists f; path := b |}
           {| world := world st1; trace := trace st1 ++ [Yielded b] |}
  | (Raise x, st1) => (Raise x, st1)
  | (Diverge, st1) => (Diverge, st1)
  end.
Proof.
  intros Hn Ha. simpl. rewrite Hn, Ha. unfold bind at 1.
  destruct (remove_wrapper_finish a st) as [[b|x|] st1]; reflexivity.
Qed.

(** What holds of every run of the loop of [rmtree_iterator]: it ends, it
    checks nothing, its exceptions are those of [remove], and it leaves
    [subpath_exists] set as soon as there was an entry. *)
Lemma loop_facts (ex : BoostExecutor) (fuel : nat) :
  forall (sched : list choice) (pending inflight : list CloudPath)
         (f : frame) (st : state W),
  (2 * length pending + length inflight < fuel)%nat ->
  let r := loop ex fuel sched pending inflight f st in
  fst r <> Diverge /\
  checked (trace (snd r)) = checked (trace st) /\
  (forall x, fst r = Raise x -> remove_error x) /\
  (forall f', fst r = Done f' ->
     pending <> [] \/ subpath_exists f = true -> subpath_exists f' = true).
Proof.
  induction fuel as [|fuel IH]; intros sched pending inflight f st Hfuel;
    [lia|].
  destruct (next_action (Pos.to_nat (concurrency ex)) sched pending inflight)
    as [| |i] eqn:Hn.
  - apply next_action_stop in Hn as [-> ->]; [|lia].
    simpl. repeat split; try discriminate.
    intros f' [= <-] [?|?]; congruence.
  - destruct (next_action_pull _ _ _ _ Hn) as (a & rest & ->).
    rewrite (loop_pull _ _ _ _ _ _ _ _ Hn). simpl in Hfuel.
    specialize (IH (tail sched) rest (inflight ++ [a])
                   {| subpath_exists := true; path := path f |}
                   {| world := world st; trace := trace st ++ [Called a] |}).
    destruct IH as (I1 & I2 & I3 & I4).
    { rewrite length_app. simpl. lia. }
    simpl in *. repeat split; auto.
    rewrite I2. unfold checked. rewrite omap_app. simpl. apply app_nil_r.
  - destruct (next_action_complete _ _ _ _ _ Hn) as (a & Ha).
    rewrite (loop_complete _ _ _ _ _ _ _ _ _ Hn Ha).
    destruct (finish_cases a st) as [(Hd & _ & _ & Hw & Ht)|(x & Hx & Hr & Hc & Hy)].
    + destruct (remove_wrapper_finish a st) as [o st1]. simpl in *. subst o.
      specialize (IH (tail sched) pending (delete i inflight)
                   {| subpath_exists := subpath_exists f; path := a |}
                   {| world := world st1; trace := trace st1 ++ [Yielded a] |}).
      destruct IH as (I1 & I2 & I3 & I4).
      { assert (length (delete i inflight) < length inflight)%nat; [|lia].
        rewrite length_delete by eauto.
        apply lookup_lt_Some in Ha. lia. }
      simpl in *. repeat split; auto.
      rewrite I2, Ht. unfold checked. rewrite !omap_app. simpl.
      now rewrite !app_nil_r.
    + destruct (remove_wrapper_finish a st) as [o st1]. simpl in *. subst o.
      repeat split; try discriminate; auto.
      intros y [= <-]. assumption.
Qed.

Lemma loop_empty (ex : BoostExecutor) (fuel : nat) (sched : list choice)
    (f : frame) (st : state W) :
  loop ex (S fuel) sched [] [] f st = (Done f, st).
Proof. reflexivity. Qed.

(** C4: when nothing is listed under the path, [rmtree_iterator] (and
    [rmtree] on a cloud path, which consumes it) raises
    [FileNotFoundError(path)] if the path is not a file either, and
    [NotADirectoryError(path)] if the path is a plain file; it yields no
    path and sends no delete request before the error. *)
Theorem rmtree_nothing_listed (path0 : CloudPath) (ex : BoostExecutor)
    (sched : list choice) (w : W) :
  listtree (ensure_directory_like path0) w = [] ->
  let r := rmtree_iterator path0 ex sched (start w) in
  fst r = Raise (if isfile path0 w
                 then NotADirectoryError (Some path0)
                 else FileNotFoundError (Some path0)) /\
  yielded (trace (snd r)) = [] /\
  sent (trace (snd r)) = [] /\
  _cloud_rmtree path0 ex sched (start w) = r.
Proof.
  intros Hl r. subst r.
  unfold _cloud_rmtree, consume, rmtree_iterator, bind, run_listtree.
  simpl. rewrite Hl. simpl.
  destruct (isfile path0 w); simpl; auto.
Qed.


Lemma before_snoc_other (tr : list event) (ev : event) :
  removed_before_yielded tr ->
  (forall e, ev <> Yielded e) ->
  removed_before_yielded (tr ++ [ev]).
Proof.
  intros Htr Hev tr1 tr2 e Heq.
  destruct tr2 as [|x tr2 _] using rev_ind.
  - apply app_inj_tail in Heq as [_ ->]. now contradiction (Hev e).
  - rewrite app_comm_cons, app_assoc in Heq.
    apply app_inj_tail in Heq as [-> _]. exact (Htr _ _ _ eq_refl).
Qed.

Lemma before_snoc_yield (tr : list event) (e : CloudPath) :
  removed_before_yielded tr ->
  In (Called e) tr -> In (Sent (delete_request e)) tr ->
  removed_before_yielded (tr ++ [Yielded e]).
Proof.
  intros Htr Hc Hs tr1 tr2 e' Heq.
  destruct tr2 as [|x tr2 _] using rev_ind.
  - apply app_inj_tail in Heq as [-> [= <-]]. auto.
  - rewrite app_comm_cons, app_assoc in Heq.
    apply app_inj_tail in Heq as [-> _]. exact (Htr _ _ _ eq_refl).
Qed.

Lemma finish_ok (e : CloudPath) (st : state W) (w' : W) :
  is_directory_like e = false ->
  respond (delete_request e) (world st) = (deleted_status e, w') ->
  remove_wrapper_finish e st =
  (Done e, {| world := w'; trace := trace st ++ [Sent (delete_request e)] |}).
Proof.
  intros Hd Hr. unfold remove_wrapper_finish, bind.
  rewrite remove_file_like by assumption.
  unfold execute_reponseless. rewrite Hr. now destruct e.
Qed.

(** ** What holds of every run *)

(** How one task of the loop ends. *)
Lemma finish_run (e : CloudPath) (st : state W) :
  (is_directory_like e = true /\
   remove_wrapper_finish e st = (Raise IsADirectoryError, st)) \/
  (is_directory_like e = false /\
   let st1 := {| world := snd (respond (delete_request e) (world st));
                 trace := trace st ++ [Sent (delete_request e)] |} in
   (remove_wrapper_finish e st = (Done e, st1) /\
    fst (respond (delete_request e) (world st)) = deleted_status e) \/
   (exists x, remove_wrapper_finish e st = (Raise x, st1) /\
              fst (respond (delete_request e) (world st)) <> deleted_status e)).
Proof.
  destruct (is_directory_like e) eqn:Hd; [left|right]; (split; [reflexivity|]).
  - unfold remove_wrapper_finish, bind.
    now rewrite remove_directory_like by assumption.
  - unfold remove_wrapper_finish, bind. rewrite remove_file_like by assumption.
    pose proof (execute_outcome e st) as Ho.
    pose proof (execute_trace (delete_request e) st) as [Ht Hw].
    destruct (execute_reponseless (delete_request e) st) as [o [w1 tr1]].
    simpl in *. subst w1 tr1.
    destruct (Z.eqb_spec (fst (respond (delete_request e) (world st)))
                         (deleted_status e)) as [Hs|Hs].
    + left. subst o. now split.
    + right. destruct (Z.eqb _ 404); subst o; eauto.
Qed.

(** Every run of the loop: what it yields and what it sends, and how this
    relates to the entries it was given, by the way it ends. *)
Lemma loop_safe (ex : BoostExecutor) (fuel : nat) :
  forall (sched : list choice) (pending inflight : list CloudPath)
         (f : frame) (st : state W),
  (2 * length pending + length inflight < fuel)%nat ->
  removed_before_yielded (trace st) ->
  Forall (fun e => In (Called e) (trace st)) inflight ->
  exists ys rs,
    let r := loop ex fuel sched pending inflight f st in
    yielded (trace (snd r)) = yielded (trace st) ++ ys /\
    sent (trace (snd r)) = sent (trace st) ++ (delete_request <$> rs) /\
    Forall (fun e => is_directory_like e = false) rs /\
    removed_before_yielded (trace (snd r)) /\
    match fst r with
    | Done _ => rs = ys /\ ys ≡ₚ inflight ++ pending
    | Raise _ => exists a, a :: ys ⊆+ inflight ++ pending /\
                           (rs = ys \/ rs = ys ++ [a])
    | Diverge => False
    end.
Proof.
  induction fuel as [|fuel IH];
    intros sched pending inflight f st Hfuel Hord Hcalled; [lia|].
  destruct (next_action (Pos.to_nat (concurrency ex)) sched pending inflight)
    as [| |i] eqn:Hn.
  - apply next_action_stop in Hn as [-> ->]; [|lia].
    exists [], []. simpl. rewrite !app_nil_r.
    split; [reflexivity|]. split; [reflexivity|]. split; [constructor|].
    split; [assumption|]. now split.
  - destruct (next_action_pull _ _ _ _ Hn) as (a & rest & ->).
    rewrite (loop_pull _ _ _ _ _ _ _ _ Hn). simpl in Hfuel.
    rewrite (cons_middle a inflight rest), app_assoc.
    destruct (IH (tail sched) rest (inflight ++ [a])
                 {| subpath_exists := true; path := path f |}
                 {| world := world st; trace := trace st ++ [Called a] |})
      as (ys & rs & Hy & Hs & Hfile & Hord' & Hend).
    + rewrite length_app. simpl. lia.
    + simpl. apply before_snoc_other; [assumption | discriminate].
    + simpl. apply Forall_app. split.
      * eapply Forall_impl; [exact Hcalled|].
        intros e He. apply in_or_app. now left.
      * constructor; [|constructor]. apply in_or_app. right. now left.
    + exists ys, rs. cbn zeta in *. cbn [trace] in Hy, Hs.
      split; [|split; [|auto]].
      * rewrite Hy. unfold yielded. rewrite omap_app. simpl.
        now rewrite app_nil_r.
      * rewrite Hs. unfold sent. rewrite omap_app. simpl.
        now rewrite app_nil_r.
  - destruct (next_action_complete _ _ _ _ _ Hn) as (a & Ha).
    rewrite (loop_complete _ _ _ _ _ _ _ _ _ Hn Ha).
    assert (Hperm : inflight ++ pending ≡ₚ a :: (delete i inflight ++ pending)).
    { now rewrite (delete_Permutation _ _ _ Ha) at 1. }
    assert (Hin : [a] ⊆+ inflight ++ pending).
    { rewrite Hperm. apply submseteq_skip, submseteq_nil_l. }
    destruct (finish_run a st) as [[Hd ->]|[Hd Hrun]].
    + exists [], []. simpl. rewrite !app_nil_r.
      split; [reflexivity|]. split; [reflexivity|]. split; [constructor|].
      split; [assumption|]. exists a. auto.
    + cbn zeta in Hrun. destruct Hrun as [[-> _]|(x & -> & _)].
      * destruct (IH (tail sched) pending (delete i inflight)
                   {| subpath_exists := subpath_exists f; path := a |}
                   {| world := snd (respond (delete_request a) (world st));
                      trace := (trace st ++ [Sent (delete_request a)])
                                 ++ [Yielded a] |})
          as (ys & rs & Hy & Hs & Hfile & Hord' & Hend).
        -- assert (length (delete i inflight) < length inflight)%nat; [|lia].
           rewrite length_delete by eauto. apply lookup_lt_Some in Ha. lia.
        -- cbn [trace]. apply before_snoc_yield.
           ++ apply before_snoc_other; [assumption | discriminate].
           ++ apply in_or_app. left.
              apply (proj1 (Forall_forall _ _) Hcalled).
              eapply list_elem_of_lookup_2. exact Ha.
           ++ apply in_or_app. right. now left.
        -- cbn [trace]. eapply Forall_impl.
           ++ apply Forall_delete. exact Hcalled.
           ++ intros e He. cbn beta. apply in_or_app. left.
              apply in_or_app. now left.
        -- exists (a :: ys), (a :: rs). cbn zeta in *.
           cbn [world trace] in *.
           split; [|split; [|split; [|split]]].
           ++ rewrite Hy. unfold yielded. rewrite !omap_app. simpl.
              rewrite app_nil_r, <- app_assoc. reflexivity.
           ++ rewrite Hs. unfold sent. rewrite !omap_app. simpl.
              rewrite <- !app_assoc. reflexivity.
           ++ now constructor.
           ++ assumption.
           ++ destruct (fst (loop ex fuel (tail sched) pending
                               (delete i inflight) _ _)) as [f'|x|].
              ** destruct Hend as [-> Hp]. split; [reflexivity|].
                 rewrite Hperm. now constructor.
              ** destruct Hend as (b & Hb & Hrs). exists b. split.
                 --- rewrite Hperm, (Permutation_swap a b ys).
                     now apply submseteq_skip.
                 --- destruct Hrs as [->| ->]; [now left | now right].
              ** assumption.
      * exists [], [a]. simpl. rewrite !app_nil_r.
        split.
        { unfold yielded. rewrite omap_app. simpl. apply app_nil_r. }
        split.
        { unfold sent. rewrite omap_app. reflexivity. }
        split; [now repeat constructor|]. split.
        { apply before_snoc_other; [assumption | discriminate]. }
        exists a. auto.
Qed.

Lemma rmtree_nothing_listed_run (path0 : CloudPath) (ex : BoostExecutor)
    (sched : list choice) (w : W) :
  listtree (ensure_directory_like path0) w = [] ->
  fst (rmtree_iterator path0 ex sched (start w))
  = Raise (if isfile path0 w
           then NotADirectoryError (Some path0)
           else FileNotFoundError (Some path0)).
Proof.
  intros Hl. unfold rmtree_iterator, bind, run_listtree.
  simpl. rewrite Hl. simpl. now destruct (isfile path0 w).
Qed.

(** The run of [rmtree_iterator], from the run of its loop. *)
Lemma rmtree_iterator_run (path0 : CloudPath) (ex : BoostExecutor)
    (sched : list choice) (w : W) :
  let listing := listtree (ensure_directory_like path0) w in
  rmtree_iterator path0 ex sched (start w) =
  match loop ex (2 * length listing + 1) sched listing []
             {| subpath_exists := false; path := path0 |}
             {| world := w; trace := [Listed (ensure_directory_like path0)] |}
  with
  | (Done f, st1) =>
      if negb (subpath_exists f) then
        (Raise (if negb (isfile (path f) (world st1))
                then FileNotFoundError (Some (path f))
                else NotADirectoryError (Some (path f))),
         {| world := world st1; trace := trace st1 ++ [Checked (path f)] |})
      else (Done tt, st1)
  | (Raise x, st1) => (Raise x, st1)
  | (Diverge, st1) => (Diverge, st1)
  end.
Proof.
  intros listing. unfold rmtree_iterator, bind, run_listtree.
  cbn [start world trace app]. fold listing.
  destruct (loop ex _ sched listing [] _ _) as [[f| |] st1]; try reflexivity.
  destruct (subpath_exists f); [reflexivity|]. simpl.
  unfold run_isfile. now destruct (isfile (path f) (world st1)).
Qed.

(** X7: in every run of [rmtree_iterator], whatever the services answer
    and in whatever order the tasks finish: the paths yielded are entries of
    the listing, none more often than it is listed; every request sent is the
    delete request of a listed entry that is not directory-like, at most one
    per entry; no path is yielded before its delete request was sent; and
    never more paths are yielded than requests were sent. *)
Theorem rmtree_never_oversteps (path0 : CloudPath) (ex : BoostExecutor)
    (sched : list choice) (w : W) :
  let r := rmtree_iterator path0 ex sched (start w) in
  let listing := listtree (ensure_directory_like path0) w in
  yielded (trace (snd r)) ⊆+ listing /\
  (exists rs, sent (trace (snd r)) = delete_request <$> rs /\
              rs ⊆+ listing /\
              Forall (fun e => is_directory_like e = false) rs) /\
  removed_before_yielded (trace (snd r)) /\
  (length (yielded (trace (snd r))) <= length (sent (trace (snd r))))%nat.
Proof.
  intros r listing. subst r. rewrite rmtree_iterator_run. fold listing.
  destruct (loop_safe ex (2 * length listing + 1) sched listing []
              {| subpath_exists := false; path := path0 |}
              {| world := w; trace := [Listed (ensure_directory_like path0)] |})
    as (ys & rs & Hy & Hs & Hfile & Hord & Hend).
  { simpl. lia. }
  { intros tr1 tr2 e Heq. destruct tr1 as [|? [|? ?]]; discriminate. }
  { constructor. }
  cbn zeta in *. simpl in Hy, Hs.
  destruct (loop ex _ sched listing [] _ _) as [[f| |] st1];
    cbn [fst snd] in *; [| |contradiction].
  - destruct Hend as [-> Hp]. simpl in Hp.
    assert (Hgoal :
      yielded (trace st1) ⊆+ listing /\
      (exists rs, sent (trace st1) = delete_request <$> rs /\
                  rs ⊆+ listing /\
                  Forall (fun e => is_directory_like e = false) rs) /\
      removed_before_yielded (trace st1) /\
      (length (yielded (trace st1)) <= length (sent (trace st1)))%nat).
    { rewrite Hy, Hs, length_fmap. split; [now rewrite Hp|].
      split; [|auto]. exists ys. split; [reflexivity|].
      split; [now rewrite Hp | assumption]. }
    destruct (subpath_exists f); cbn [negb snd trace]; [exact Hgoal|].
    destruct Hgoal as (G1 & G2 & G3 & G4).
    unfold yielded, sent in *. rewrite !omap_app. simpl. rewrite !app_nil_r.
    split; [assumption|]. split; [assumption|]. split; [|assumption].
    apply before_snoc_other; [assumption | discriminate].
  - destruct Hend as (a & Ha & Hrs). simpl in Ha.
    assert (Hys : ys ⊆+ listing).
    { etransitivity; [|exact Ha]. apply submseteq_cons. reflexivity. }
    rewrite Hy, Hs, length_fmap. split; [assumption|]. split; [|split].
    + exists rs. split; [reflexivity|]. split; [|assumption].
      destruct Hrs as [->| ->]; [assumption|].
      etransitivity; [|exact Ha].
      now rewrite <- (Permutation_cons_append ys a).
    + assumption.
    + destruct Hrs as [->| ->]; [lia|]. rewrite length_app. lia.
Qed.

(** X8: [rmtree_iterator] returns without an exception exactly when the
    listing was not empty and every listed entry was deleted and yielded,
    each once; in that case one delete request was sent for each entry and
    none of them is directory-like. *)
Theorem rmtree_returns_iff_all_deleted (path0 : CloudPath)
    (ex : BoostExecutor) (sched : list choice) (w : W) :
  let r := rmtree_iterator path0 ex sched (start w) in
  let listing := listtree (ensure_directory_like path0) w in
  (fst r = Done tt <-> listing <> [] /\ yielded (trace (snd r)) ≡ₚ listing) /\
  (fst r = Done tt ->
     sent (trace (snd r)) = delete_request <$> yielded (trace (snd r)) /\
     Forall (fun e => is_directory_like e = false) listing).
Proof.
  intros r listing.
  destruct (decide (listing = [])) as [Hl|Hne].
  - assert (Hr : fst r = Raise (if isfile path0 w
                                then NotADirectoryError (Some path0)
                                else FileNotFoundError (Some path0)))
      by (apply rmtree_nothing_listed_run; exact Hl).
    rewrite Hr. split; [|discriminate].
    split; [discriminate | now intros [? _]].
  - subst r. rewrite rmtree_iterator_run. fold listing.
    destruct (loop_safe ex (2 * length listing + 1) sched listing []
                {| subpath_exists := false; path := path0 |}
                {| world := w;
                   trace := [Listed (ensure_directory_like path0)] |})
      as (ys & rs & Hy & Hs & Hfile & Hord & Hend).
    { simpl. lia. }
    { intros tr1 tr2 e Heq. destruct tr1 as [|? [|? ?]]; discriminate. }
    { constructor. }
    pose proof (loop_facts ex (2 * length listing + 1) sched listing []
                  {| subpath_exists := false; path := path0 |}
                  {| world := w;
                     trace := [Listed (ensure_directory_like path0)] |})
      as Hfacts.
    cbn zeta in *. destruct Hfacts as (_ & _ & _ & Hflag); [simpl; lia|].
    simpl in Hy, Hs.
    destruct (loop ex _ sched listing [] _ _) as [[f| |] st1];
      cbn [fst snd] in *; [| |contradiction].
    + destruct Hend as [-> Hp]. simpl in Hp.
      rewrite (Hflag f eq_refl (or_introl Hne)). cbn [negb fst snd].
      rewrite Hy, Hs. split.
      * split; [intros _; split; [assumption | now rewrite Hp] | reflexivity].
      * intros _. split; [reflexivity|]. now rewrite <- Hp.
    + destruct Hend as (a & Ha & _). simpl in Ha. split; [|discriminate].
      split; [discriminate|]. intros [_ Hall]. exfalso.
      rewrite Hy in Hall. simpl in Hall.
      apply submseteq_length in Ha. apply Permutation_length in Hall.
      simpl in Ha. lia.
Qed.

(** X9: [remove] on a cloud path returns without an exception exactly
    when the path is not directory-like and the service answers the delete
    request with 202 (Azure) or 204 (Google); it never fails to end; it
    sends one request, the delete request of the path, unless the path is
    directory-like, and then none. *)
Theorem remove_returns_iff_deleted (p : CloudPath) (st : state W) :
  (fst (remove p st) = Done tt <->
   is_directory_like p = false /\
   fst (respond (delete_request p) (world st))
   = match p with Azure _ => 202%Z | Google _ => 204%Z end) /\
  fst (remove p st) <> Diverge /\
  sent (trace (snd (remove p st)))
  = sent (trace st) ++ (if is_directory_like p then [] else [delete_request p]) /\
  method (delete_request p) = "DELETE".
Proof.
  change (match p with Azure _ => 202%Z | Google _ => 204%Z end)
    with (deleted_status p).
  destruct (is_directory_like p) eqn:Hd.
  - rewrite remove_directory_like by assumption. simpl. rewrite app_nil_r.
    split; [|split; [discriminate | split; [reflexivity | now destruct p]]].
    split; [discriminate | now intros [? _]].
  - rewrite remove_file_like by assumption.
    pose proof (execute_outcome p st) as Ho. cbn zeta in Ho.
    pose proof (execute_trace (delete_request p) st) as [Ht _].
    split; [|split; [|split; [|now destruct p]]].
    + rewrite Ho.
      destruct (Z.eqb_spec (fst (respond (delete_request p) (world st)))
                           (deleted_status p)) as [Hs|Hs].
      * tauto.
      * split; [|now intros [_ ?]].
        destruct (Z.eqb _ 404); discriminate.
    + rewrite Ho. destruct (Z.eqb _ (deleted_status p)); [discriminate|].
      destruct (Z.eqb _ 404); discriminate.
    + unfold sent. rewrite Ht, omap_app. reflexivity.
Qed.

Section Deleting.
Context (has_blob : CloudPath -> W -> Prop) `{!DeletesBlobs has_blob}.

Abbreviation url_of := (fun p : CloudPath => url (delete_request p)).

(** With every entry present, the loop deletes and yields them all. *)
Lemma loop_deletes (ex : BoostExecutor) (fuel : nat) :
  forall (sched : list choice) (pending inflight : list CloudPath)
         (f : frame) (st : state W),
  (2 * length pending + length inflight < fuel)%nat ->
  NoDup (url_of <$> (inflight ++ pending)) ->
  Forall (fun e => has_blob e (world st) /\ is_directory_like e = false)
         (inflight ++ pending) ->
  removed_before_yielded (trace st) ->
  Forall (fun e => In (Called e) (trace st)) inflight ->
  exists f' st' ys,
    loop ex fuel sched pending inflight f st = (Done f', st') /\
    yielded (trace st') = yielded (trace st) ++ ys /\
    ys ≡ₚ inflight ++ pending /\
    Forall (fun e => ~ has_blob e (world st')) (inflight ++ pending) /\
    (forall q, url_of q ∉ url_of <$> (inflight ++ pending) ->
               (has_blob q (world st') <-> has_blob q (world st))) /\
    removed_before_yielded (trace st').
Proof.
  induction fuel as [|fuel IH];
    intros sched pending inflight f st Hfuel Hnd Hall Hord Hcalled; [lia|].
  destruct (next_action (Pos.to_nat (concurrency ex)) sched pending inflight)
    as [| |i] eqn:Hn.
  - apply next_action_stop in Hn as [-> ->]; [|lia].
    exists f, st, []. simpl. rewrite app_nil_r.
    split; [reflexivity|]. split; [reflexivity|]. split; [reflexivity|].
    split; [constructor|]. split; [reflexivity | assumption].
  - destruct (next_action_pull _ _ _ _ Hn) as (a & rest & ->).
    rewrite (loop_pull _ _ _ _ _ _ _ _ Hn). simpl in Hfuel.
    rewrite (cons_middle a inflight rest), app_assoc in Hnd, Hall |- *.
    destruct (IH (tail sched) rest (inflight ++ [a])
                 {| subpath_exists := true; path := path f |}
                 {| world := world st; trace := trace st ++ [Called a] |})
      as (f' & st' & ys & Hrun & Hy & Hp & Hgone & Hframe & Hord').
    + rewrite length_app. simpl. lia.
    + assumption.
    + assumption.
    + simpl. apply before_snoc_other; [assumption | discriminate].
    + simpl. apply Forall_app. split.
      * eapply Forall_impl; [exact Hcalled|].
        intros e He. apply in_or_app. now left.
      * constructor; [|constructor]. apply in_or_app. right. now left.
    + exists f', st', ys. simpl in *.
      split; [assumption|]. split; [|auto].
      rewrite Hy. unfold yielded. rewrite omap_app. simpl.
      now rewrite app_nil_r.
  - destruct (next_action_complete _ _ _ _ _ Hn) as (a & Ha).
    rewrite (loop_complete _ _ _ _ _ _ _ _ _ Hn Ha).
    assert (Hperm : inflight ++ pending ≡ₚ a :: (delete i inflight ++ pending)).
    { now rewrite (delete_Permutation _ _ _ Ha) at 1. }
    assert (Hnd' := Hnd). assert (Hall' := Hall).
    rewrite Hperm in Hnd', Hall'. rewrite fmap_cons in Hnd'.
    apply NoDup_cons in Hnd' as [Hfresh Hnd'].
    apply Forall_cons in Hall' as [[Hblob Hfile] Hall'].
    destruct (delete_blob a (world st) Hblob) as (w' & Hr & Hgone_a & Hkeep).
    rewrite (finish_ok a st w' Hfile Hr). cbn [world trace].
    destruct (IH (tail sched) pending (delete i inflight)
                 {| subpath_exists := subpath_exists f; path := a |}
                 {| world := w';
                    trace := (trace st ++ [Sent (delete_request a)])
                               ++ [Yielded a] |})
      as (f' & st' & ys & Hrun & Hy & Hp & Hgone & Hframe & Hord').
    + assert (length (delete i inflight) < length inflight)%nat; [|lia].
      rewrite length_delete by eauto. apply lookup_lt_Some in Ha. lia.
    + assumption.
    + cbn [world]. apply Forall_forall. intros e He.
      pose proof (proj1 (Forall_forall _ _) Hall' e He) as [Hb Hf].
      split; [|assumption]. apply Hkeep; [|assumption].
      intros Heq. apply Hfresh. cbn beta in Heq. rewrite <- Heq.
      apply list_elem_of_fmap. eauto.
    + cbn [trace]. apply before_snoc_yield.
      * apply before_snoc_other; [assumption | discriminate].
      * apply in_or_app. left.
        apply (proj1 (Forall_forall _ _) Hcalled).
        eapply list_elem_of_lookup_2. exact Ha.
      * apply in_or_app. right. now left.
    + cbn [trace]. eapply Forall_impl.
      * apply Forall_delete. exact Hcalled.
      * intros e He. cbn beta. apply in_or_app. left. apply in_or_app. now left.
    + exists f', st', (a :: ys). cbn [world trace] in *.
      split; [assumption|]. split; [|split; [|split; [|split]]].
      * rewrite Hy. unfold yielded. rewrite !omap_app. simpl.
        rewrite app_nil_r, <- app_assoc. reflexivity.
      * rewrite Hperm. now constructor.
      * rewrite Hperm. constructor; [|assumption].
        rewrite (Hframe a Hfresh). assumption.
      * intros q Hq. rewrite Hperm, fmap_cons in Hq.
        apply not_elem_of_cons in Hq as [Hqa Hq].
        rewrite (Hframe q Hq). apply Hkeep. assumption.
      * assumption.
Qed.

(** C5: when the listing of the directory has [K >= 1] entries, all of
    them existing blobs at distinct URLs, [rmtree_iterator] ends without an
    exception, every entry is deleted, the paths yielded are the [K] entries,
    each exactly once in some order, and each is yielded only after
    [remove_wrapper] was entered for it and its delete request was sent. *)
Theorem rmtree_deletes_every_entry (path0 : CloudPath) (ex : BoostExecutor)
    (sched : list choice) (w : W) (entries : list CloudPath) :
  listtree (ensure_directory_like path0) w = entries ->
  entries <> [] ->
  NoDup (url_of <$> entries) ->
  Forall (fun e => has_blob e w /\ is_directory_like e = false) entries ->
  let r := rmtree_iterator path0 ex sched (start w) in
  fst r = Done tt /\
  yielded (trace (snd r)) ≡ₚ entries /\
  NoDup (yielded (trace (snd r))) /\
  Forall (fun e => ~ has_blob e (world (snd r))) entries /\
  removed_before_yielded (trace (snd r)) /\
  _cloud_rmtree path0 ex sched (start w) = r.
Proof.
  intros Hl Hne Hnd Hall r. subst r.
  unfold _cloud_rmtree, consume, rmtree_iterator, bind, run_listtree.
  cbn [start world trace app]. rewrite Hl.
  set (f0 := {| subpath_exists := false; path := path0 |}).
  set (st0 := {| world := w;
                 trace := [Listed (ensure_directory_like path0)] |}).
  destruct (loop_deletes ex (2 * length entries + 1) sched entries [] f0 st0)
    as (f' & st' & ys & Hrun & Hy & Hp & Hgone & _ & Hord).
  - simpl. lia.
  - assumption.
  - assumption.
  - intros tr1 tr2 e Heq. destruct tr1 as [|? [|? ?]]; discriminate.
  - constructor.
  - pose proof (loop_facts ex (2 * length entries + 1) sched entries [] f0 st0)
      as Hfacts.
    cbn zeta in Hfacts. destruct Hfacts as (_ & _ & _ & Hflag); [simpl; lia|].
    rewrite Hrun in Hflag |- *. cbn [fst snd] in *.
    rewrite (Hflag f' eq_refl (or_introl Hne)). cbn [negb ret fst snd].
    simpl in Hy. simpl in Hp. simpl in Hgone.
    assert (Hys : yielded (trace st') ≡ₚ entries) by now rewrite Hy.
    split; [reflexivity|]. split; [assumption|].
    split; [|auto].
    rewrite Hys. eapply NoDup_fmap_1. exact Hnd.
Qed.

(** X10: under the conditions of a full deletion (every listed entry an
    existing blob at its own URL, none directory-like), [rmtree_iterator]
    leaves every blob whose URL is not that of a listed entry as it was:
    present if it was present, absent if it was absent. *)
Theorem rmtree_leaves_other_blobs (path0 : CloudPath) (ex : BoostExecutor)
    (sched : list choice) (w : W) (entries : list CloudPath) :
  listtree (ensure_directory_like path0) w = entries ->
  NoDup (url_of <$> entries) ->
  Forall (fun e => has_blob e w /\ is_directory_like e = false) entries ->
  forall q, url_of q ∉ url_of <$> entries ->
    (has_blob q (world (snd (rmtree_iterator path0 ex sched (start w))))
     <-> has_blob q w).
Proof.
  intros Hl Hnd Hall q Hq.
  rewrite rmtree_iterator_run, Hl.
  destruct (loop_deletes ex (2 * length entries + 1) sched entries []
              {| subpath_exists := false; path := path0 |}
              {| world := w; trace := [Listed (ensure_directory_like path0)] |})
    as (f' & st' & ys & Hrun & _ & _ & _ & Hframe & _).
  - simpl. lia.
  - assumption.
  - assumption.
  - intros tr1 tr2 e Heq. destruct tr1 as [|? [|? ?]]; discriminate.
  - constructor.
  - rewrite Hrun. specialize (Hframe q Hq). simpl in Hframe.
    now destruct (subpath_exists f').
Qed.

End Deleting.

End DeleteFacts.

(** ** The example store honours deletes *)

Section ExampleStore.
Import Delete.

Lemma example_request_url (p : CloudPath) :
  url (delete_request p) = example_url p "".
Proof. now destruct p. Qed.

#[local] Instance example_deletes_blobs : DeletesBlobs example_has_blob.
Proof.
  constructor. intros p w [(q & Hq & Hurl) Hstatus].
  exists (filter (fun q => example_url q "" <> url (delete_request p)) w).
  split; [|split].
  - change (respond (delete_request p) w)
      with (store_respond (delete_request p) w).
    unfold store_respond.
    assert (existsb (fun q => bool_decide (example_url q "" = url (delete_request p))) w = true) as ->.
    { apply existsb_exists. exists q. split; [now apply list_elem_of_In|].
      apply bool_decide_eq_true_2. now rewrite example_request_url. }
    now rewrite example_request_url, Hstatus.
  - intros [(q' & Hq' & Hurl') _].
    apply list_elem_of_filter in Hq' as [Hne _].
    apply Hne. now rewrite example_request_url.
  - intros q0 Hq0. rewrite !example_request_url in Hq0.
    unfold example_has_blob. split.
    + intros [(q' & Hq' & Hurl') Hs]. split; [|assumption].
      apply list_elem_of_filter in Hq' as [_ Hq']. eauto.
    + intros [(q' & Hq' & Hurl') Hs]. split; [|assumption].
      exists q'. split; [|assumption].
      apply list_elem_of_filter. split; [|assumption].
      rewrite example_request_url. congruence.
Qed.

Lemma rmtree_nothing_listed_witness :
  fst (rmtree_iterator (az "zz") example_executor [] (start example_store))
    = Raise (FileNotFoundError (Some (az "zz"))) /\
  fst (rmtree_iterator (az "e") example_executor [] (start example_store))
    = Raise (NotADirectoryError (Some (az "e"))).
Proof.
  split.
  - exact (proj1 (rmtree_nothing_listed (az "zz") example_executor []
                    example_store eq_refl)).
  - exact (proj1 (rmtree_nothing_listed (az "e") example_executor []
                    example_store eq_refl)).
Defined.

Lemma rmtree_deletes_every_entry_witness :
  let r := rmtree_iterator (az "d") example_executor [Pull; Pull; Complete 1]
             (start example_store) in
  fst r = Done tt /\ yielded (trace (snd r)) ≡ₚ [az "d/a"; az "d/b/c"].
Proof.
  assert (Hblob : forall b, az b ∈ example_store ->
                            example_has_blob (az b) example_store).
  { intros b Hb. split; [eauto | reflexivity]. }
  destruct (rmtree_deletes_every_entry example_has_blob (az "d")
              example_executor [Pull; Pull; Complete 1] example_store
              [az "d/a"; az "d/b/c"]) as (H1 & H2 & _).
  - reflexivity.
  - discriminate.
  - apply (bool_decide_unpack _). vm_compute. exact I.
  - repeat constructor; apply Hblob; apply (bool_decide_unpack _);
      vm_compute; exact I.
  - split; [exact H1 | exact H2].
Defined.

Lemma remove_cloud_errors_witness :
  remove (az "d/") (start example_store)
    = (Raise IsADirectoryError, start example_store) /\
  fst (remove (az "nothere") (start example_store))
    = Raise (FileNotFoundError None).
Proof.
  destruct (remove_cloud_errors (az "d/") (start example_store)) as [Hdir _].
  destruct (remove_cloud_errors (az "nothere") (start example_store))
    as [_ Hfile].
  split.
  - exact (proj1 (Hdir eq_refl)).
  - exact (proj1 (Hfile eq_refl eq_refl)).
Defined.


Lemma rmtree_leaves_other_blobs_witness :
  example_has_blob (az "e")
    (world (snd (rmtree_iterator (az "d") example_executor []
                   (start example_store))))
  <-> example_has_blob (az "e") example_store.
Proof.
  assert (Hblob : forall b, az b ∈ example_store ->
                            example_has_blob (az b) example_store).
  { intros b Hb. split; [eauto | reflexivity]. }
  apply (rmtree_leaves_other_blobs example_has_blob (az "d")
           example_executor [] example_store [az "d/a"; az "d/b/c"]).
  - reflexivity.
  - apply (bool_decide_unpack _). vm_compute. exact I.
  - repeat constructor; apply Hblob; apply (bool_decide_unpack _);
      vm_compute; exact I.
  - apply (bool_decide_unpack _). vm_compute. exact I.
Defined.

End ExampleStore.

(** * Facts about the synchronisation engine *)

Section SyncFacts.
Import Syncing.
Local Open Scope Z_scope.

(** ** The order of paths *)

Lemma path_lt_le (p q : string) : path_lt p q <-> String.le p q /\ p <> q.
Proof.
  unfold path_lt, String.le, String.leb. split.
  - intros Hlt. split; [now rewrite Hlt|].
    intros ->. pose proof (String.compare_antisym q q) as Ha.
    rewrite Hlt in Ha. discriminate.
  - intros [Hle Hne]. destruct (String.compare p q) eqn:Hc;
      [|reflexivity|contradiction].
    apply String.compare_eq_iff in Hc. contradiction.
Qed.

Lemma path_lt_irrefl (p : string) : ~ path_lt p p.
Proof. intros [_ Hne]%path_lt_le. now apply Hne. Qed.

Lemma path_lt_trans (p q r : string) : path_lt p q -> path_lt q r -> path_lt p r.
Proof.
  intros [Hpq Hne]%path_lt_le [Hqr Hne']%path_lt_le. apply path_lt_le.
  split; [now transitivity q|].
  intros ->. apply Hne. now apply (anti_symm String.le).
Qed.

Lemma compare_gt (p q : string) : String.compare p q = Gt -> path_lt q p.
Proof.
  intros Hc. unfold path_lt. rewrite String.compare_antisym, Hc. reflexivity.
Qed.

Lemma path_lt_ne (p q : string) : path_lt p q -> p <> q.
Proof. intros Hlt ->. now apply path_lt_irrefl in Hlt. Qed.

Lemma path_lt_ne_sym (p q : string) : path_lt p q -> q <> p.
Proof. intros Hlt ->. now apply path_lt_irrefl in Hlt. Qed.

Lemma strict_cons (x : DirEntry) (xs : list DirEntry) :
  strict (x :: xs) ->
  strict xs /\ forall x0, x0 ∈ xs -> path_lt (relpath x) (relpath x0).
Proof.
  intros [Hall Hs]%StronglySorted_cons. split; [assumption|].
  now apply Forall_forall.
Qed.

(** ** The merge join *)

Section merge.
Variable changed : DirEntry -> DirEntry -> bool.
Variable deleting : bool.

Abbreviation delete_of := (fun y : DirEntry => DeleteAction (relpath y)).

Lemma merge_join_cons (x y : DirEntry) (xs ys : list DirEntry) :
  merge_join changed deleting (x :: xs) (y :: ys) =
  match String.compare (relpath x) (relpath y) with
  | Lt => copy_of x :: merge_join changed deleting xs (y :: ys)
  | Gt => (if deleting then [DeleteAction (relpath y)] else [])
            ++ merge_join changed deleting (x :: xs) ys
  | Eq => (if changed x y then [copy_of x] else [])
            ++ merge_join changed deleting xs ys
  end.
Proof. reflexivity. Qed.

Lemma merge_join_nil_r (xs : list DirEntry) :
  merge_join changed deleting xs [] = copy_of <$> xs.
Proof. destruct xs; [now destruct deleting | reflexivity]. Qed.

Lemma merge_join_nil_l (ys : list DirEntry) :
  merge_join changed deleting [] ys = if deleting then delete_of <$> ys else [].
Proof. reflexivity. Qed.

(** Where an action comes from. *)
Lemma merge_join_origin (xs ys : list DirEntry) (a : Action) :
  a ∈ merge_join changed deleting xs ys ->
  (exists x, x ∈ xs /\ a = copy_of x) \/
  (deleting = true /\ exists y, y ∈ ys /\ a = DeleteAction (relpath y)).
Proof.
  revert ys. induction xs as [|x xs IHxs]; intros ys.
  - rewrite merge_join_nil_l. destruct deleting; [|now intros ?%elem_of_nil].
    intros (y & -> & Hy)%list_elem_of_fmap. right. eauto.
  - induction ys as [|y ys IHys].
    + rewrite merge_join_nil_r. intros (x0 & -> & Hx0)%list_elem_of_fmap.
      left. eauto.
    + rewrite merge_join_cons. destruct (String.compare _ _).
      * intros [Ha|Ha]%elem_of_app.
        -- destruct (changed x y); [|now apply elem_of_nil in Ha].
           apply list_elem_of_singleton in Ha as ->. left. exists x.
           split; [left|reflexivity].
        -- apply IHxs in Ha as [(x0 & ? & ?)|(? & y0 & ? & ?)];
             [left; exists x0 | right; split; [assumption|exists y0]];
             (split; [now right | assumption]).
      * intros [->|Ha]%elem_of_cons.
        -- left. exists x. split; [left|reflexivity].
        -- apply IHxs in Ha as [(x0 & ? & ?)|?]; [left|now right].
           exists x0. split; [now right | assumption].
      * intros [Ha|Ha]%elem_of_app.
        -- destruct deleting eqn:Hd; [|now apply elem_of_nil in Ha].
           apply list_elem_of_singleton in Ha as ->. right.
           split; [reflexivity|]. exists y. split; [left|reflexivity].
        -- apply IHys in Ha as [?|(? & y0 & ? & ?)]; [now left|right].
           split; [assumption|]. exists y0. split; [now right | assumption].
Qed.

(** What the merge join of two strictly sorted sequences contains. *)
Lemma merge_join_elem (xs ys : list DirEntry) :
  strict xs -> strict ys ->
  forall a,
    a ∈ merge_join changed deleting xs ys <->
    (exists x, x ∈ xs /\ a = copy_of x /\
       forall y, y ∈ ys -> relpath y = relpath x -> changed x y = true) \/
    (deleting = true /\
     exists y, y ∈ ys /\ a = DeleteAction (relpath y) /\
       forall x, x ∈ xs -> relpath x <> relpath y).
Proof.
  revert ys. induction xs as [|x xs IHxs]; intros ys Hxs Hys a.
  - rewrite merge_join_nil_l. split.
    + destruct deleting; [|now intros ?%elem_of_nil].
      intros (y & -> & Hy)%list_elem_of_fmap. right.
      split; [reflexivity|]. exists y. split; [assumption|]. split; [reflexivity|].
      now intros x ?%elem_of_nil.
    + intros [(x & ?%elem_of_nil & _)|(-> & y & Hy & -> & _)]; [done|].
      apply list_elem_of_fmap. eauto.
  - apply strict_cons in Hxs as [Hxs Hx].
    induction ys as [|y ys IHys].
    + rewrite merge_join_nil_r, list_elem_of_fmap. split.
      * intros (x0 & -> & Hx0). left. exists x0. split; [assumption|]. split; [reflexivity|].
        now intros y ?%elem_of_nil.
      * intros [(x0 & Hx0 & -> & _)|(_ & y & ?%elem_of_nil & _)]; [eauto|done].
    + apply strict_cons in Hys as [Hys Hy].
      specialize (IHys Hys). rewrite merge_join_cons.
      destruct (String.compare (relpath x) (relpath y)) eqn:Hc.
      * (* the same path *)
        apply String.compare_eq_iff in Hc.
        assert (H3 : forall x0, x0 ∈ xs -> relpath y <> relpath x0).
        { intros x0 Hx0. rewrite <- Hc. now apply path_lt_ne, Hx. }
        assert (H4 : forall y0, y0 ∈ ys -> relpath y0 <> relpath x).
        { intros y0 Hy0. rewrite Hc. now apply path_lt_ne_sym, Hy. }
        rewrite elem_of_app, (IHxs ys Hxs Hys a). clear IHxs IHys.
        split.
        -- intros [Ha|[(x0 & Hx0 & -> & Hch)|(Hd & y0 & Hy0 & -> & Hnx)]].
           ++ destruct (changed x y) eqn:Hxy; [|now apply elem_of_nil in Ha].
              apply list_elem_of_singleton in Ha as ->. left. exists x.
              split; [left|]. split; [reflexivity|].
              intros y0 [->|Hy0]%elem_of_cons Hp; [assumption|].
              now contradiction (H4 y0).
           ++ left. exists x0. split; [now right|]. split; [reflexivity|].
              intros y0 [->|Hy0]%elem_of_cons Hp; [|now apply Hch].
              now contradiction (H3 x0).
           ++ right. split; [assumption|]. exists y0.
              split; [now right|]. split; [reflexivity|].
              intros x0 [->|Hx0]%elem_of_cons Hp; [|now apply (Hnx x0)].
              now apply (H4 y0).
        -- intros [(x0 & [->|Hx0]%elem_of_cons & -> & Hch)
                  |(Hd & y0 & [->|Hy0]%elem_of_cons & -> & Hnx)].
           ++ left.
              assert (changed x y = true) as ->
                by (apply Hch; [left | now symmetry]).
              left.
           ++ right. left. exists x0. split; [assumption|]. split; [reflexivity|].
              intros y0 Hy0. apply Hch. now right.
           ++ exfalso. apply (Hnx x); [left | assumption].
           ++ right. right. split; [assumption|]. exists y0.
              split; [assumption|]. split; [reflexivity|].
              intros x0 Hx0. apply Hnx. now right.
      * (* the source path comes first *)
        assert (Hc' : path_lt (relpath x) (relpath y)) by exact Hc.
        assert (H1 : forall y0, y0 ∈ y :: ys -> relpath y0 <> relpath x).
        { intros y0 [->|Hy0]%elem_of_cons; [now apply path_lt_ne_sym|].
          apply path_lt_ne_sym. eapply path_lt_trans; [exact Hc'|]. now apply Hy. }
        rewrite elem_of_cons, (IHxs (y :: ys) Hxs).
        2:{ apply StronglySorted_cons. split; [|assumption].
            now apply Forall_forall. }
        clear IHxs IHys. split.
        -- intros [->|[(x0 & Hx0 & -> & Hch)|(Hd & y0 & Hy0 & -> & Hnx)]].
           ++ left. exists x. split; [left|]. split; [reflexivity|].
              intros y0 Hy0 Hp. now contradiction (H1 y0).
           ++ left. exists x0. split; [now right|]. now split.
           ++ right. split; [assumption|]. exists y0.
              split; [assumption|]. split; [reflexivity|].
              intros x0 [->|Hx0]%elem_of_cons Hp; [|now apply (Hnx x0)].
              now apply (H1 y0).
        -- intros [(x0 & [->|Hx0]%elem_of_cons & -> & Hch)
                  |(Hd & y0 & Hy0 & -> & Hnx)].
           ++ now left.
           ++ right. left. exists x0. split; [assumption|]. now split.
           ++ right. right. split; [assumption|]. exists y0.
              split; [assumption|]. split; [reflexivity|].
              intros x0 Hx0. apply Hnx. now right.
      * (* the destination path comes first *)
        apply compare_gt in Hc.
        assert (H2 : forall x0, x0 ∈ x :: xs -> relpath x0 <> relpath y).
        { intros x0 [->|Hx0]%elem_of_cons; [now apply path_lt_ne_sym|].
          apply path_lt_ne_sym. eapply path_lt_trans; [exact Hc|]. now apply Hx. }
        rewrite elem_of_app, IHys. clear IHxs IHys. split.
        -- intros [Ha|[(x0 & Hx0 & -> & Hch)|(Hd & y0 & Hy0 & -> & Hnx)]].
           ++ destruct deleting eqn:Hd; [|now apply elem_of_nil in Ha].
              apply list_elem_of_singleton in Ha as ->. right.
              split; [reflexivity|]. exists y. split; [left|].
              split; [reflexivity | assumption].
           ++ left. exists x0. split; [assumption|]. split; [reflexivity|].
              intros y0 [->|Hy0]%elem_of_cons Hp; [|now apply Hch].
              now contradiction (H2 x0).
           ++ right. split; [assumption|]. exists y0.
              split; [now right|]. now split.
        -- intros [(x0 & Hx0 & -> & Hch)
                  |(Hd & y0 & [->|Hy0]%elem_of_cons & -> & Hnx)].
           ++ right. left. exists x0. split; [assumption|]. split; [reflexivity|].
              intros y0 Hy0. apply Hch. now right.
           ++ left. rewrite Hd. left.
           ++ right. right. split; [assumption|]. exists y0. split; [assumption|]. now split.
Qed.

Lemma merge_join_above (p : string) (xs ys : list DirEntry) :
  (forall x, x ∈ xs -> path_lt p (relpath x)) ->
  (forall y, y ∈ ys -> path_lt p (relpath y)) ->
  Forall (path_lt p) (action_relpath <$> merge_join changed deleting xs ys).
Proof.
  intros Hxs Hys. apply Forall_forall.
  intros q (a & -> & Ha)%list_elem_of_fmap.
  apply merge_join_origin in Ha as [(x & Hx & ->)|(_ & y & Hy & ->)]; simpl; auto.
Qed.

(** The actions come out in the order of their paths (spec, section 5). *)
Lemma merge_join_sorted (xs ys : list DirEntry) :
  strict xs -> strict ys ->
  StronglySorted path_lt (action_relpath <$> merge_join changed deleting xs ys).
Proof.
  revert ys. induction xs as [|x xs IHxs]; intros ys Hxs Hys.
  - rewrite merge_join_nil_l. destruct deleting; [|constructor].
    rewrite <- list_fmap_compose. now apply StronglySorted_fmap with (R1 := fun a b => path_lt (relpath a) (relpath b)).
  - pose proof Hxs as Hxs0. apply strict_cons in Hxs as [Hxs Hx].
    induction ys as [|y ys IHys].
    + rewrite merge_join_nil_r, <- list_fmap_compose.
      now apply StronglySorted_fmap with (R1 := fun a b => path_lt (relpath a) (relpath b)).
    + pose proof Hys as Hys0. apply strict_cons in Hys as [Hys Hy].
      specialize (IHys Hys). rewrite merge_join_cons.
      destruct (String.compare (relpath x) (relpath y)) eqn:Hc.
      * apply String.compare_eq_iff in Hc.
        destruct (changed x y); cbn [app]; [|now apply IHxs].
        rewrite fmap_cons. apply StronglySorted_cons. split; [|now apply IHxs].
        apply merge_join_above; [assumption|].
        intros y0 Hy0. change (path_lt (relpath x) (relpath y0)).
        rewrite Hc. now apply Hy.
      * assert (Hc' : path_lt (relpath x) (relpath y)) by exact Hc.
        rewrite fmap_cons. apply StronglySorted_cons.
        split; [|now apply IHxs].
        apply merge_join_above; [assumption|].
        intros y0 [->|Hy0]%elem_of_cons; [assumption|].
        eapply path_lt_trans; [exact Hc'|]. now apply Hy.
      * apply compare_gt in Hc.
        assert (Hhead : (if deleting then [DeleteAction (relpath y)] else [])
                          = [DeleteAction (relpath y)] \/
                        (if deleting then [DeleteAction (relpath y)] else [])
                          = []) by (destruct deleting; auto).
        destruct Hhead as [-> | ->]; cbn [app]; [|assumption].
        rewrite fmap_cons.
        apply StronglySorted_cons. split; [|assumption].
        apply merge_join_above; [|assumption].
        intros x0 [->|Hx0]%elem_of_cons; [assumption|].
        eapply path_lt_trans; [exact Hc|]. now apply Hx.
Qed.

Lemma sorted_paths_NoDup (ps : list string) :
  StronglySorted path_lt ps -> NoDup ps.
Proof.
  induction 1 as [|p ps Hs IH Hall]; constructor; [|assumption].
  intros Hin. apply (proj1 (Forall_forall _ _) Hall) in Hin.
  now apply path_lt_irrefl in Hin.
Qed.

Lemma merge_join_NoDup (xs ys : list DirEntry) :
  strict xs -> strict ys ->
  NoDup (action_relpath <$> merge_join changed deleting xs ys).
Proof. intros Hxs Hys. now apply sorted_paths_NoDup, merge_join_sorted. Qed.

End merge.

(** ** Listings of trees *)

Lemma listtree_elem (t : tree) (x : DirEntry) :
  x ∈ listtree t <->
  exists f, t !! relpath x = Some f /\ x = entry_of (relpath x) f.
Proof.
  unfold listtree. rewrite list_elem_of_fmap. split.
  - intros ([p f] & -> & Hpf). apply elem_of_map_to_list in Hpf.
    exists f. simpl. auto.
  - intros (f & Hf & Hx). exists (relpath x, f). split; [exact Hx|].
    now apply elem_of_map_to_list.
Qed.

Lemma listtree_paths (t : tree) : relpath <$> listtree t = (map_to_list t).*1.
Proof.
  unfold listtree. rewrite <- list_fmap_compose. now apply list_fmap_ext.
Qed.

#[local] Instance entry_le_total : Total entry_le.
Proof. intros a b. apply (total String.le). Qed.

#[local] Instance entry_le_trans : Transitive entry_le.
Proof. intros a b c. unfold entry_le. apply transitivity. Qed.

Lemma sorted_entries_perm (t : tree) : sorted_entries t ≡ₚ listtree t.
Proof. apply merge_sort_Permutation. Qed.

Lemma sorted_entries_elem (t : tree) (x : DirEntry) :
  x ∈ sorted_entries t <->
  exists f, t !! relpath x = Some f /\ x = entry_of (relpath x) f.
Proof. now rewrite sorted_entries_perm, listtree_elem. Qed.

Lemma le_NoDup_strict (xs : list DirEntry) :
  StronglySorted entry_le xs -> NoDup (relpath <$> xs) -> strict xs.
Proof.
  induction 1 as [|x xs Hs IH Hall]; intros Hnd; [constructor|].
  rewrite fmap_cons in Hnd. apply NoDup_cons in Hnd as [Hx Hnd].
  constructor; [now apply IH|].
  apply Forall_forall. intros x0 Hx0. apply path_lt_le. split.
  - exact (proj1 (Forall_forall _ _) Hall x0 Hx0).
  - intros Heq. apply Hx. rewrite Heq. apply list_elem_of_fmap. eauto.
Qed.

Lemma sorted_entries_strict (t : tree) : strict (sorted_entries t).
Proof.
  apply le_NoDup_strict.
  - apply Sorted_StronglySorted; [apply _|]. apply Sorted_merge_sort. apply _.
  - rewrite sorted_entries_perm, listtree_paths. apply NoDup_fst_map_to_list.
Qed.

(** The actions of a merge join of two trees, by what the trees hold. *)
Lemma tree_join_copy (changed : DirEntry -> DirEntry -> bool) (deleting : bool)
    (src dst : tree) (p : string) (n : Z) :
  CopyAction p n ∈ merge_join changed deleting (sorted_entries src)
                                               (sorted_entries dst) <->
  exists f, src !! p = Some f /\ n = file_size f /\
    forall g, dst !! p = Some g ->
              changed (entry_of p f) (entry_of p g) = true.
Proof.
  rewrite merge_join_elem by apply sorted_entries_strict. split.
  - intros [(x & Hx & Ha & Hch)|(_ & y & _ & Ha & _)]; [|discriminate].
    apply sorted_entries_elem in Hx as (f & Hf & Hx).
    injection Ha as -> ->. exists f. split; [assumption|].
    split; [now rewrite Hx|].
    intros g Hg. rewrite <- Hx. apply Hch; [|reflexivity].
    apply sorted_entries_elem. exists g. auto.
  - intros (f & Hf & -> & Hch). left. exists (entry_of p f).
    split; [|split; [reflexivity|]].
    + apply sorted_entries_elem. exists f. auto.
    + intros y (g & Hg & Hy)%sorted_entries_elem Hp. simpl in Hp.
      rewrite Hy, Hp. apply Hch. now rewrite <- Hp.
Qed.

Lemma tree_join_delete (changed : DirEntry -> DirEntry -> bool)
    (deleting : bool) (src dst : tree) (p : string) :
  DeleteAction p ∈ merge_join changed deleting (sorted_entries src)
                                               (sorted_entries dst) <->
  deleting = true /\ src !! p = None /\ is_Some (dst !! p).
Proof.
  rewrite merge_join_elem by apply sorted_entries_strict. split.
  - intros [(x & _ & Ha & _)|(Hd & y & Hy & Ha & Hnx)]; [discriminate|].
    injection Ha as ->.
    apply sorted_entries_elem in Hy as (g & Hg & _).
    split; [assumption|]. split; [|eauto].
    destruct (src !! relpath y) as [f|] eqn:Hf; [|reflexivity].
    exfalso. apply (Hnx (entry_of (relpath y) f)); [|reflexivity].
    apply sorted_entries_elem. exists f. auto.
  - intros (Hd & Hf & g & Hg). right. split; [assumption|].
    exists (entry_of p g). split; [|split; [reflexivity|]].
    + apply sorted_entries_elem. exists g. auto.
    + intros x (f & Hf' & _)%sorted_entries_elem Hp. simpl in Hp.
      rewrite Hp in Hf'. congruence.
Qed.

Lemma tree_join_NoDup (changed : DirEntry -> DirEntry -> bool)
    (deleting : bool) (src dst : tree) :
  NoDup (action_relpath <$> merge_join changed deleting (sorted_entries src)
                                                      (sorted_entries dst)).
Proof. apply merge_join_NoDup; apply sorted_entries_strict. Qed.

(** ** Applying actions *)

Lemma apply_action_other (src : tree) (delete : bool) (clock : string -> Z)
    (dst dst' : tree) (a : Action) (p : string) :
  apply_action src delete clock dst a = Some dst' ->
  action_relpath a <> p -> dst' !! p = dst !! p.
Proof.
  destruct a as [q n|q]; simpl; intros Ha Hp.
  - destruct (src !! q); [|discriminate]. injection Ha as <-.
    now apply lookup_insert_ne.
  - destruct delete; [|now injection Ha as <-].
    destruct (dst !! q); [|discriminate]. injection Ha as <-.
    now apply lookup_delete_ne.
Qed.

Lemma apply_actions_other (src : tree) (delete : bool) (clock : string -> Z)
    (acts : list Action) (p : string) :
  forall dst dst',
  apply_actions src delete clock dst acts = Some dst' ->
  (forall a, a ∈ acts -> action_relpath a <> p) ->
  dst' !! p = dst !! p.
Proof.
  induction acts as [|a acts IH]; intros dst dst' Hrun Hp; simpl in Hrun.
  - now injection Hrun as <-.
  - destruct (apply_action src delete clock dst a) as [dst1|] eqn:Ha;
      [|discriminate].
    rewrite (IH dst1 dst' Hrun) by (intros; apply Hp; now right).
    eapply apply_action_other; [exact Ha|]. apply Hp. left.
Qed.

(** Actions on distinct paths, each of them possible, all succeed, and each
    path ends as its action leaves it. *)
Lemma apply_actions_distinct (src : tree) (delete : bool)
    (clock : string -> Z) (acts : list Action) :
  forall dst,
  NoDup (action_relpath <$> acts) ->
  (forall p n, CopyAction p n ∈ acts -> is_Some (src !! p)) ->
  (forall p, DeleteAction p ∈ acts -> is_Some (dst !! p)) ->
  exists dst',
    apply_actions src delete clock dst acts = Some dst' /\
    (forall p n, CopyAction p n ∈ acts ->
                 dst' !! p = copied clock p <$> src !! p) /\
    (forall p, DeleteAction p ∈ acts ->
               dst' !! p = if delete then None else dst !! p).
Proof.
  induction acts as [|a acts IH]; intros dst Hnd Hcopy Hdel.
  - exists dst. split; [reflexivity|].
    split; intros; now apply elem_of_nil in H.
  - rewrite fmap_cons in Hnd. apply NoDup_cons in Hnd as [Hfresh Hnd].
    assert (Hrest : forall b, b ∈ acts -> action_relpath b <> action_relpath a).
    { intros b Hb Heq. apply Hfresh. rewrite <- Heq.
      apply list_elem_of_fmap. eauto. }
    assert (Ha : exists dst1, apply_action src delete clock dst a = Some dst1 /\
              match a with
              | CopyAction p _ => dst1 !! p = copied clock p <$> src !! p
              | DeleteAction p => dst1 !! p = if delete then None else dst !! p
              end).
    { destruct a as [p n|p]; simpl.
      - destruct (Hcopy p n) as [f Hf]; [left|]. rewrite Hf.
        eexists. split; [reflexivity|]. simpl. apply lookup_insert_eq.
      - destruct delete; [|eauto].
        destruct (Hdel p) as [g Hg]; [left|]. rewrite Hg.
        eexists. split; [reflexivity|]. apply lookup_delete_eq. }
    destruct Ha as (dst1 & Ha & Hhere).
    destruct (IH dst1 Hnd) as (dst' & Hrun & Hc & Hd).
    { intros p n Hp. apply (Hcopy p n). now right. }
    { intros p Hp.
      rewrite (apply_action_other _ _ _ _ _ _ _ Ha)
        by (intros Heq; now apply (Hrest _ Hp)).
      apply Hdel. now right. }
    exists dst'. simpl. rewrite Ha. split; [assumption|]. split.
    + intros p n [<-|Hp]%elem_of_cons; [|now apply (Hc p n)].
      rewrite (apply_actions_other _ _ _ _ _ _ _ Hrun); [assumption|].
      intros b Hb. now apply Hrest.
    + intros p [<-|Hp]%elem_of_cons.
      * rewrite (apply_actions_other _ _ _ _ _ _ _ Hrun); [assumption|].
        intros b Hb. now apply Hrest.
      * rewrite (Hd p Hp). destruct delete; [reflexivity|].
        eapply apply_action_other; [exact Ha|].
        intros Heq. now apply (Hrest _ Hp).
Qed.

(** [sync] never fails on trees that do not change under it, and leaves
    every path reconciled. *)
Lemma sync_reconciles (src dst : tree) (delete : bool) (clock : string -> Z) :
  exists r,
    sync src dst delete clock = Some r /\
    apply_actions src delete clock dst (sync_iterator src dst)
      = Some (destination r) /\
    completed r = action_relpath <$> sync_iterator src dst /\
    forall p, destination r !! p
              = reconciled delete clock p (src !! p) (dst !! p).
Proof.
  unfold sync.
  destruct (apply_actions_distinct src delete clock (sync_iterator src dst) dst)
    as (dst' & Hrun & Hc & Hd).
  - apply tree_join_NoDup.
  - intros p n (f & Hf & _)%tree_join_copy. eauto.
  - intros p (_ & _ & Hg)%tree_join_delete. assumption.
  - rewrite Hrun. eexists. split; [reflexivity|]. split; [reflexivity|].
    split; [reflexivity|]. intros p. simpl.
    destruct (src !! p) as [f|] eqn:Hf, (dst !! p) as [g|] eqn:Hg; simpl.
    + destruct (size_differs_or_newer (entry_of p f) (entry_of p g)) eqn:Hch.
      * rewrite (Hc p (file_size f)), Hf; [reflexivity|].
        apply tree_join_copy. exists f. repeat split; [assumption|].
        intros g' Hg'. congruence.
      * rewrite (apply_actions_other _ _ _ _ _ _ _ Hrun); [assumption|].
        intros [q n|q] Ha Heq; simpl in Heq; subst q.
        -- apply tree_join_copy in Ha as (f' & Hf' & _ & Hch').
           rewrite Hf in Hf'. injection Hf' as <-.
           rewrite (Hch' g Hg) in Hch. discriminate.
        -- apply tree_join_delete in Ha as (_ & Hn & _). congruence.
    + rewrite (Hc p (file_size f)), Hf; [reflexivity|].
      apply tree_join_copy. exists f. repeat split; [assumption|].
      intros g' Hg'. congruence.
    + rewrite (Hd p), Hg; [reflexivity|].
      apply tree_join_delete. rewrite Hf, Hg. eauto.
    + rewrite (apply_actions_other _ _ _ _ _ _ _ Hrun); [assumption|].
      intros [q n|q] Ha Heq; simpl in Heq; subst q.
      * apply tree_join_copy in Ha as (f' & Hf' & _). congruence.
      * apply tree_join_delete in Ha as (_ & _ & [g' Hg']). congruence.
Qed.

Lemma unchanged_sizes (p : string) (f g : File) :
  size_differs_or_newer (entry_of p f) (entry_of p g) = false <->
  file_size f = file_size g /\ modified f <= modified g.
Proof.
  unfold size_differs_or_newer. simpl.
  rewrite orb_false_iff, negb_false_iff, Z.eqb_eq, Z.ltb_ge. reflexivity.
Qed.

Lemma changed_sizes (p : string) (f g : File) :
  size_differs_or_newer (entry_of p f) (entry_of p g) = true <->
  file_size f <> file_size g \/ modified g < modified f.
Proof.
  unfold size_differs_or_newer. simpl.
  rewrite orb_true_iff, negb_true_iff, Z.eqb_neq, Z.ltb_lt. reflexivity.
Qed.

Lemma reconciled_sizes (delete : bool) (clock : string -> Z) (p : string)
    (s d : option File) :
  file_size <$> reconciled delete clock p s d =
  match s with
  | Some f => Some (file_size f)
  | None => if delete then None else file_size <$> d
  end.
Proof.
  destruct s as [f|], d as [g|]; simpl; try reflexivity.
  - destruct (size_differs_or_newer _ _) eqn:Hch; [reflexivity|].
    apply unchanged_sizes in Hch as [-> _]. reflexivity.
  - now destruct delete.
  - now destruct delete.
Qed.

(** The actions of [sync_iterator] are enough. *)
Lemma sync_iterator_achieves (src dst : tree) (delete : bool)
    (clock : string -> Z) :
  achieves src dst delete clock (sync_iterator src dst).
Proof.
  destruct (sync_reconciles src dst delete clock) as (r & _ & Hrun & _ & Hr).
  exists (destination r). split; [assumption|].
  unfold in_sync, sizes. destruct delete.
  - apply map_eq. intros p.
    rewrite !lookup_fmap, Hr, reconciled_sizes. now destruct (src !! p).
  - apply map_subseteq_spec. intros p n.
    rewrite !lookup_fmap, Hr, reconciled_sizes.
    destruct (src !! p); [auto | discriminate].
Qed.

Lemma same_path_same_action (acts : list Action) (a b : Action) :
  NoDup (action_relpath <$> acts) -> a ∈ acts -> b ∈ acts ->
  action_relpath a = action_relpath b -> a = b.
Proof.
  induction acts as [|c acts IH]; intros Hnd Ha Hb Heq;
    [now apply elem_of_nil in Ha|].
  rewrite fmap_cons in Hnd. apply NoDup_cons in Hnd as [Hc Hnd].
  apply elem_of_cons in Ha as [->|Ha]; apply elem_of_cons in Hb as [->|Hb].
  - reflexivity.
  - exfalso. apply Hc. rewrite Heq. apply list_elem_of_fmap. eauto.
  - exfalso. apply Hc. rewrite <- Heq. apply list_elem_of_fmap. eauto.
  - now apply IH.
Qed.

(** A selection of the actions that leaves one out leaves its path as it
    was. *)
Lemma left_out (src dst dst' : tree) (delete : bool) (clock : string -> Z)
    (acts' : list Action) (a : Action) :
  sublist acts' (sync_iterator src dst) ->
  a ∈ sync_iterator src dst -> a ∉ acts' ->
  apply_actions src delete clock dst acts' = Some dst' ->
  dst' !! action_relpath a = dst !! action_relpath a.
Proof.
  intros Hsub Ha Hout Hrun.
  eapply apply_actions_other; [exact Hrun|].
  intros b Hb Heq. apply Hout.
  assert (b = a) as <-; [|assumption].
  eapply same_path_same_action; [apply tree_join_NoDup| |exact Ha|exact Heq].
  eapply elem_of_sublist; eassumption.
Qed.

(** ** The test of the repository *)

Lemma test_sync_passes : test_sync = true.
Proof. vm_compute. reflexivity. Qed.

(** The specification taken at its word does not pass it, with or without
    the delete flag. *)
Lemma test_sync_rejects_wording (delete : bool) :
  test_sync_with (fun s d => sync_iterator_as_worded s d delete) sync = false.
Proof. destruct delete; vm_compute; reflexivity. Qed.

Lemma test_actions :
  sync_iterator test_src1 test_dst1
  = [CopyAction "delta/f9" 4; DeleteAction "f2"].
Proof. vm_compute. reflexivity. Qed.

(** ** C1 *)




(** ** C3 *)


Lemma count_one (acts : list Action) (a : Action) :
  NoDup (action_relpath <$> acts) -> a ∈ acts ->
  count_occ Action_eq_dec acts a = 1%nat.
Proof.
  intros Hnd Ha. apply NoDup_fmap_1, NoDup_ListNoDup in Hnd.
  apply (proj1 (NoDup_count_occ' Action_eq_dec acts) Hnd a).
  now apply list_elem_of_In.
Qed.



(** ** C6 *)




(** ** C2 *)



(** ** The assertions of [test_sync], for all trees *)

Lemma sorted_same_elements (l1 l2 : list string) :
  StronglySorted path_lt l1 -> StronglySorted path_lt l2 ->
  (forall p, p ∈ l1 <-> p ∈ l2) -> l1 = l2.
Proof.
  intros H1. revert l2. induction H1 as [|x l1 Hs1 IH Hx]; intros l2 H2 Hsame.
  - destruct l2 as [|y l2]; [reflexivity|].
    exfalso. apply (elem_of_nil y), Hsame. left.
  - destruct H2 as [|y l2 Hs2 Hy].
    { exfalso. apply (elem_of_nil x), Hsame. left. }
    assert (Hxy : x = y).
    { assert (Hx2 : x ∈ y :: l2) by (apply Hsame; left).
      assert (Hy1 : y ∈ x :: l1) by (apply Hsame; left).
      apply elem_of_cons in Hx2 as [?|Hx2]; [assumption|].
      apply elem_of_cons in Hy1 as [?|Hy1]; [congruence|].
      exfalso. apply (path_lt_irrefl x).
      eapply path_lt_trans.
      - exact (proj1 (Forall_forall _ _) Hx y Hy1).
      - exact (proj1 (Forall_forall _ _) Hy x Hx2). }
    subst y. f_equal. apply IH; [assumption|].
    intros p. split; intros Hp.
    + assert (Hp' : p ∈ x :: l2) by (apply Hsame; now right).
      apply elem_of_cons in Hp' as [->|?]; [|assumption].
      exfalso. apply (path_lt_irrefl x).
      exact (proj1 (Forall_forall _ _) Hx x Hp).
    + assert (Hp' : p ∈ x :: l1) by (apply Hsame; now right).
      apply elem_of_cons in Hp' as [->|?]; [|assumption].
      exfalso. apply (path_lt_irrefl x).
      exact (proj1 (Forall_forall _ _) Hy x Hp).
Qed.

Lemma _listtree_elem (t : tree) (p : string) :
  p ∈ _listtree t <-> is_Some (t !! p).
Proof.
  unfold _listtree. rewrite list_elem_of_fmap. split.
  - intros (x & -> & (f & Hf & _)%sorted_entries_elem). eauto.
  - intros [f Hf]. exists (entry_of p f). split; [reflexivity|].
    apply sorted_entries_elem. exists f. auto.
Qed.

Lemma _listtree_sorted (t : tree) : StronglySorted path_lt (_listtree t).
Proof.
  unfold _listtree.
  apply StronglySorted_fmap
    with (R1 := fun a b => path_lt (relpath a) (relpath b)); [auto|].
  apply sorted_entries_strict.
Qed.

Lemma same_paths_same_listing (t1 t2 : tree) :
  (forall p, is_Some (t1 !! p) <-> is_Some (t2 !! p)) ->
  _listtree t1 = _listtree t2.
Proof.
  intros Hsame. apply sorted_same_elements; try apply _listtree_sorted.
  intros p. now rewrite !_listtree_elem.
Qed.

Lemma reconciled_is_Some (delete : bool) (clock : string -> Z) (p : string)
    (s d : option File) :
  is_Some (reconciled delete clock p s d) <->
  is_Some s \/ (delete = false /\ is_Some d).
Proof.
  unfold is_Some.
  destruct s as [f|], d as [g|], delete; simpl;
    try destruct (size_differs_or_newer _ _);
    (split; intros Hx;
     [ try (destruct Hx as [? Hx]; discriminate); eauto
     | try (destruct Hx as [[? Hx]|[Hx [? Hx']]]; discriminate); eauto ]).
Qed.


(** X12: the first assertion of [test_sync] holds whenever the destination
    has no path that the source lacks, as when it is empty: after
    [sync(src, dst, executor)] the sorted listings of relative paths are
    equal; and into an empty destination every file arrives with the bytes
    of the source file. *)
Theorem sync_without_delete_equal_listings
    (src dst : tree) (clock : string -> Z) :
  (forall p, is_Some (dst !! p) -> is_Some (src !! p)) ->
  exists r,
    sync src dst false clock = Some r /\
    _listtree src = _listtree (destination r) /\
    (dst = ∅ ->
     forall p, contents <$> destination r !! p = contents <$> src !! p).
Proof.
  intros Hstale.
  destruct (sync_reconciles src dst false clock) as (r & Hr & _ & _ & Hp).
  exists r. split; [assumption|]. split.
  - apply same_paths_same_listing. intros p.
    rewrite Hp, reconciled_is_Some. split; [auto|].
    intros [?|[_ ?]]; [assumption | now apply Hstale].
  - intros -> p. rewrite Hp, lookup_empty. now destruct (src !! p).
Qed.

Lemma sync_without_delete_equal_listings_witness :
  exists r,
    sync test_src0 ∅ false (fun _ => 1000) = Some r /\
    _listtree test_src0 = _listtree (destination r) /\
    ((∅ : tree) = ∅ ->
     forall p, contents <$> destination r !! p = contents <$> test_src0 !! p).
Proof.
  apply (sync_without_delete_equal_listings test_src0 ∅ (fun _ => 1000)).
  intros p [g Hg]. rewrite lookup_empty in Hg. discriminate.
Defined.

End SyncFacts.
